(** * A point-of-sale back end: stock ledger, sales, delivery orders, login rate limiter

    Shallow embedding of the server code in [src/validation.ts] (the request
    handlers that follow the validation helpers in that file) and of
    [src/audit.ts].

    Conventions of the embedding.
    - JavaScript numbers are integers ([Z]); floating point rounding, [NaN]
      and infinities are not modelled.
    - Time is a millisecond count ([Z]); an ISO time string is the rendering
      of such a count.  One handler call reads the clock once.
    - The key-value store is split by key prefix: [product:] documents,
      [order:] documents, the [stock_history:] log, the [transaction:]
      receipts and the [log:] audit trail.  Generated identifiers
      ([Date.now()] plus a random suffix) are taken to be fresh, so that the
      log-like prefixes are lists that only grow.  Documents are well typed:
      a key of one prefix is never read as a document of another.
    - Handlers return the new store together with the HTTP response; a
      handler that answers with an error keeps the writes it has already
      made, exactly as the source does. *)

From Stdlib Require Import ZArith Lia Ascii.
From stdpp Require Import gmap strings list.
From stdpp Require Import sorting.

Local Open Scope Z_scope.

(** ** JavaScript helpers *)

(** Truthiness of an optional number: [undefined] and [0] are falsy. *)
Definition truthy (o : option Z) : bool :=
  match o with
  | Some z => negb (z =? 0)
  | None => false
  end.

(** ** Login rate limiter *)

Module RateLimit.

Record attempt : Type := Attempt {
  count : Z;
  lockoutUntil : option Z;
  lastAttemptAt : option Z
}.

Definition MAX_LOGIN_ATTEMPTS : Z := 5.
Definition LOCKOUT_DURATION : Z := 15 * 60 * 1000.
Definition ATTEMPT_WINDOW : Z := 15 * 60 * 1000.

(** [loginAttempts] is a JavaScript [Map]: it iterates in insertion order,
    [set] on a key already present keeps the key's position, [set] on a new
    key appends. *)
Abbreviation jsmap := (list (string * attempt)).

Fixpoint attempts_get (k : string) (m : jsmap) : option attempt :=
  match m with
  | [] => None
  | (k', v) :: m' => if decide (k' = k) then Some v else attempts_get k m'
  end.

Fixpoint attempts_set (k : string) (v : attempt) (m : jsmap) : jsmap :=
  match m with
  | [] => [(k, v)]
  | (k', v') :: m' =>
      if decide (k' = k) then (k, v) :: m' else (k', v') :: attempts_set k v m'
  end.

Definition attempts_delete (k : string) (m : jsmap) : jsmap :=
  filter (fun kv => kv.1 ≠ k) m.

Record result : Type := Result {
  allowed : bool;
  remainingAttempts : option Z;
  lockoutDate : option Z
}.

(** [attempt?.lockoutUntil && attempt.lockoutUntil > now] *)
Definition lockout_active (now : Z) (a : option attempt) : bool :=
  match a with
  | Some a => truthy (lockoutUntil a) && bool_decide (now < default 0 (lockoutUntil a))
  | None => false
  end.

(** [attempt?.lastAttemptAt && now - attempt.lastAttemptAt > ATTEMPT_WINDOW] *)
Definition window_expired (now : Z) (a : option attempt) : bool :=
  match a with
  | Some a =>
      truthy (lastAttemptAt a)
      && bool_decide (ATTEMPT_WINDOW < now - default 0 (lastAttemptAt a))
  | None => false
  end.

Definition checkRateLimit (now : Z) (identifier : string) (m : jsmap)
  : jsmap * result :=
  let attempt := attempts_get identifier m in
  if lockout_active now attempt then
    (m, Result false None (attempt ≫= lockoutUntil))
  else if window_expired now attempt then
    (attempts_set identifier (Attempt 0 None None) m,
     Result true (Some MAX_LOGIN_ATTEMPTS) None)
  else
    match attempt with
    | None => (m, Result true (Some MAX_LOGIN_ATTEMPTS) None)
    | Some a =>
        if bool_decide (MAX_LOGIN_ATTEMPTS ≤ count a) then
          let until := now + LOCKOUT_DURATION in
          (attempts_set identifier (Attempt (count a) (Some until) (Some now)) m,
           Result false None (Some until))
        else
          (m, Result true (Some (MAX_LOGIN_ATTEMPTS - count a)) None)
    end.

(** [attempt?.count || 0] *)
Definition count_or_0 (a : option attempt) : Z :=
  match a with
  | Some a => count a
  | None => 0
  end.

(** [entries.slice(0, 100).forEach(([key]) => loginAttempts.delete(key))] *)
Definition evict_oldest (m : jsmap) : jsmap :=
  fold_left (fun acc k => attempts_delete k acc) (take 100 m).*1 m.

Definition recordLoginAttempt (now : Z) (identifier : string) (success : bool)
    (m : jsmap) : jsmap :=
  let attempt := attempts_get identifier m in
  if success then attempts_delete identifier m
  else
    let count := count_or_0 attempt + 1 in
    let m' := attempts_set identifier (Attempt count None (Some now)) m in
    if bool_decide (1000 < Z.of_nat (length m')) then evict_oldest m' else m'.

(** Consecutive failed attempts of one identifier, at the given times. *)
Definition record_failures (identifier : string) (times : list Z) (m : jsmap)
  : jsmap :=
  fold_left (fun acc t => recordLoginAttempt t identifier false acc) times m.

(** The half-hourly sweep: entries whose lock-out date is in the past go. *)
Definition lockout_over (now : Z) (a : attempt) : bool :=
  truthy (lockoutUntil a) && bool_decide (default 0 (lockoutUntil a) < now).

Definition sweep (now : Z) (m : jsmap) : jsmap :=
  filter (fun kv => ¬ lockout_over now kv.2) m.

(** What the functions maintain: at most 1000 identifiers once a call has
    returned, and counters that are not negative. *)
Definition wf (m : jsmap) : Prop :=
  (length m ≤ 1000)%nat ∧ Forall (fun kv => 0 ≤ count kv.2) m.

End RateLimit.

(** ** Validation helpers ([sanitizeString], [sanitizeNumber] and the
    request validators) *)

Inductive checked (A : Type) : Type :=
  | Ok (value : A)
  | Bad (error : string).
Arguments Ok {A} value.
Arguments Bad {A} error.

(** ASCII white space, as removed by [String.prototype.trim]. *)
Definition is_space (a : ascii) : bool :=
  let n := nat_of_ascii a in
  ((n =? 32) || ((9 <=? n) && (n <=? 13)))%nat.

Fixpoint ltrim (s : string) : string :=
  match s with
  | EmptyString => EmptyString
  | String a s' => if is_space a then ltrim s' else s
  end.

Definition trim (s : string) : string :=
  String.rev (ltrim (String.rev (ltrim s))).

Definition sanitizeString (input : string) (maxLength : nat) : checked string :=
  let value := trim input in
  if decide (value = "") then Bad "String cannot be empty"
  else if bool_decide (maxLength < String.length value)%nat then Bad "String too long"
  else Ok value.

(** [sanitizeNumber] on a number that is already an integer: only the
    bounds are left to check. *)
Definition sanitizeNumber (input : Z) (min max : option Z) : checked Z :=
  match min with
  | Some lo => if bool_decide (input < lo) then Bad "Number below minimum"
               else match max with
                    | Some hi => if bool_decide (hi < input) then Bad "Number above maximum"
                                 else Ok input
                    | None => Ok input
                    end
  | None => match max with
            | Some hi => if bool_decide (hi < input) then Bad "Number above maximum"
                         else Ok input
            | None => Ok input
            end
  end.

(** A line of a sale or order request: [{ productId, quantity }]. *)
Record LineRequest : Type := Line {
  line_productId : string;
  line_quantity : Z
}.

Record TransactionRequest : Type := TxRequest {
  req_items : list LineRequest;
  req_discount : option Z;
  req_paymentMethod : option string
}.

(** The loop of [validateTransaction] over the items: the first bad line
    ends it. *)
Fixpoint normalize_lines (items : list LineRequest) : checked (list LineRequest) :=
  match items with
  | [] => Ok []
  | item :: rest =>
      match sanitizeString (line_productId item) 200 with
      | Bad e => Bad ("items.productId: " +:+ e)
      | Ok pid =>
          match sanitizeNumber (line_quantity item) (Some 1) None with
          | Bad e => Bad ("items.quantity: " +:+ e)
          | Ok qty =>
              match normalize_lines rest with
              | Bad e => Bad e
              | Ok normalized => Ok (Line pid qty :: normalized)
              end
          end
      end
  end.

(** An optional string field that is validated when present. *)
Definition sanitizeOptional (field : string) (input : option string) (maxLength : nat)
  : checked (option string) :=
  match input with
  | None => Ok None
  | Some raw =>
      match sanitizeString raw maxLength with
      | Bad e => Bad (field +:+ ": " +:+ e)
      | Ok v => Ok (Some v)
      end
  end.

Record ValidTransaction : Type := ValidTx {
  tx_items : list LineRequest;
  tx_discount : Z;
  tx_paymentMethod : option string
}.

Definition validateTransaction (data : TransactionRequest) : checked ValidTransaction :=
  match req_items data with
  | [] => Bad "items: must be non-empty array"
  | items =>
      match normalize_lines items with
      | Bad e => Bad e
      | Ok normalized =>
          match sanitizeNumber (default 0 (req_discount data)) (Some 0) None with
          | Bad e => Bad ("discount: " +:+ e)
          | Ok discount =>
              match sanitizeOptional "paymentMethod" (req_paymentMethod data) 40 with
              | Bad e => Bad e
              | Ok paymentMethod => Ok (ValidTx normalized discount paymentMethod)
              end
          end
      end
  end.

Record StockAdjustmentRequest : Type := AdjustRequest {
  adj_change : Z;
  adj_type : option string;
  adj_reason : option string
}.

Definition validateStockAdjustment (data : StockAdjustmentRequest)
  : checked StockAdjustmentRequest :=
  match sanitizeNumber (adj_change data) None None with
  | Bad e => Bad ("change: " +:+ e)
  | Ok change =>
      match sanitizeOptional "type" (adj_type data) 40 with
      | Bad e => Bad e
      | Ok type =>
          match sanitizeOptional "reason" (adj_reason data) 200 with
          | Bad e => Bad e
          | Ok reason => Ok (AdjustRequest change type reason)
          end
      end
  end.

(** ** Documents of the key-value store *)

(** A JSON scalar, for the free-form fields of an order and for audit
    payloads. *)
Inductive jval : Type :=
  | JNull
  | JBool (b : bool)
  | JNum (z : Z)
  | JStr (s : string).

(** The authenticated caller, as resolved by [verifyUser]. *)
Record Actor : Type := mkActor {
  actor_id : string;
  actor_name : string;
  actor_role : string
}.

Module Product.
Record t : Type := mk {
  name : string;
  category : string;
  sellingPrice : Z;
  costPrice : Z;
  stock : Z;
  description : option string;
  createdAt : Z;
  updatedAt : Z
}.

(** [product.stock = newStock; product.updatedAt = nowIso] *)
Definition restock (p : t) (newStock nowIso : Z) : t :=
  mk (name p) (category p) (sellingPrice p) (costPrice p) newStock
     (description p) (createdAt p) nowIso.
End Product.

Module History.
Record t : Type := mk {
  productId : string;
  productName : string;
  change : Z;
  type : string;
  timestamp : Z;
  userId : string;
  userName : string;
  reason : string
}.
End History.

Module ReceiptItem.
Record t : Type := mk {
  productId : string;
  productName : string;
  quantity : Z;
  sellingPrice : Z;
  costPrice : Z;
  total : Z;
  cogs : Z
}.
End ReceiptItem.

(** A persisted sale ([transaction:] document). *)
Module Receipt.
Record t : Type := mk {
  items : list ReceiptItem.t;
  subtotal : Z;
  discount : Z;
  total : Z;
  cogs : Z;
  profit : Z;
  paymentMethod : option string;
  cashierId : string;
  cashierName : string;
  timestamp : Z;
  date : Z          (* the day of [timestamp] *)
}.
End Receipt.

Module OrderItem.
Record t : Type := mk {
  productId : string;
  productName : string;
  quantity : Z;
  sellingPrice : Z;
  total : Z
}.
End OrderItem.

Module Order.
(** The fields the update handler reads or stamps are typed; every other
    field of the document ([customerPhone], [deliveryDate], [notes],
    [createdBy], ... and whatever a client adds) lives in [others]. *)
Record t : Type := mk {
  status : string;
  stockReduced : bool;
  items : list OrderItem.t;
  totalAmount : Z;
  customerName : option string;
  shippedAt : option Z;
  shippedBy : option string;
  deliveredAt : option Z;
  updatedAt : Z;
  others : gmap string jval
}.
End Order.

(** The JSON body of [PUT /orders/:id]: any subset of fields.  The keys of
    [others] are names other than those of the typed fields. *)
Module Patch.
Record t : Type := mk {
  status : option string;
  stockReduced : option bool;
  items : option (list OrderItem.t);
  totalAmount : option Z;
  customerName : option string;
  shippedAt : option Z;
  shippedBy : option string;
  deliveredAt : option Z;
  updatedAt : option Z;
  others : gmap string jval
}.

Definition empty : t :=
  mk None None None None None None None None None ∅.
End Patch.

Module Audit.
Record t : Type := mk {
  type : string;
  route : string;
  userId : string;
  userName : string;
  payload : list (string * jval);
  timestamp : Z
}.
End Audit.

Record Store : Type := mkStore {
  products : gmap string Product.t;
  orders : gmap string Order.t;
  stock_history : list History.t;
  transactions : list Receipt.t;
  audit_log : list Audit.t
}.

Definition set_product (k : string) (p : Product.t) (s : Store) : Store :=
  mkStore (<[k := p]> (products s)) (orders s) (stock_history s)
          (transactions s) (audit_log s).

Definition set_order (k : string) (o : Order.t) (s : Store) : Store :=
  mkStore (products s) (<[k := o]> (orders s)) (stock_history s)
          (transactions s) (audit_log s).

Definition add_history (h : History.t) (s : Store) : Store :=
  mkStore (products s) (orders s) (stock_history s ++ [h])
          (transactions s) (audit_log s).

Definition add_transaction (t : Receipt.t) (s : Store) : Store :=
  mkStore (products s) (orders s) (stock_history s)
          (transactions s ++ [t]) (audit_log s).

(** [logEvent] of [src/audit.ts]: one more [log:] document. *)
Definition logEvent (now : Z) (type route : string) (actor : Actor)
    (payload : list (string * jval)) (s : Store) : Store :=
  mkStore (products s) (orders s) (stock_history s) (transactions s)
          (audit_log s ++ [Audit.mk type route (actor_id actor) (actor_name actor) payload now]).

(** ** HTTP responses *)

Inductive response (A : Type) : Type :=
  | Success (payload : A)
  | Failure (status : Z) (error : string).
Arguments Success {A} payload.
Arguments Failure {A} status error.

Definition is_success {A : Type} (r : response A) : bool :=
  match r with
  | Success _ => true
  | Failure _ _ => false
  end.

(** [a || b] on an optional string: [undefined] and the empty string are
    falsy. *)
Definition str_or (a : option string) (b : string) : string :=
  match a with
  | Some EmptyString | None => b
  | Some v => v
  end.

(** A field of an audit payload that is left out when [undefined]. *)
Definition opt_field (k : string) (v : option string) : list (string * jval) :=
  match v with
  | Some x => [(k, JStr x)]
  | None => []
  end.

(** A template literal renders a missing value as [undefined]. *)
Definition render (a : option string) : string := default "undefined" a.

(** The date part of an ISO time stamp, as a day number. *)
Definition day_of (now : Z) : Z := now / 86400000.

(** ** The sale handler, [POST /transactions] *)

(** The item loop.  It carries [subtotal], [totalCogs] and [processedItems];
    a missing product or a short stock answers at once, whatever was written
    for the earlier lines stays written. *)
Fixpoint sell_lines (now : Z) (actor : Actor) (items : list LineRequest)
    (s : Store) (subtotal totalCogs : Z) (processedItems : list ReceiptItem.t)
  : Store * response (Z * Z * list ReceiptItem.t) :=
  match items with
  | [] => (s, Success (subtotal, totalCogs, processedItems))
  | item :: rest =>
      match products s !! line_productId item with
      | None => (s, Failure 404 ("Product " +:+ line_productId item +:+ " not found"))
      | Some product =>
          if bool_decide (Product.stock product < line_quantity item) then
            (s, Failure 400 ("Insufficient stock for " +:+ Product.name product))
          else
            let newStock := Product.stock product - line_quantity item in
            let s1 := set_product (line_productId item)
                        (Product.restock product newStock now) s in
            let s2 := add_history
                        (History.mk (line_productId item) (Product.name product)
                           (- line_quantity item) "transaction" now
                           (actor_id actor) (actor_name actor) "Sales transaction")
                        s1 in
            let itemTotal := Product.sellingPrice product * line_quantity item in
            let itemCogs := Product.costPrice product * line_quantity item in
            sell_lines now actor rest s2 (subtotal + itemTotal) (totalCogs + itemCogs)
              (processedItems ++
                 [ReceiptItem.mk (line_productId item) (Product.name product)
                    (line_quantity item) (Product.sellingPrice product)
                    (Product.costPrice product) itemTotal itemCogs])
      end
  end.

Definition postTransaction (now : Z) (actor : Actor) (raw : TransactionRequest)
    (s : Store) : Store * response Receipt.t :=
  match validateTransaction raw with
  | Bad e => (s, Failure 400 e)
  | Ok parsed =>
      match sell_lines now actor (tx_items parsed) s 0 0 [] with
      | (s1, Failure status e) => (s1, Failure status e)
      | (s1, Success (subtotal, totalCogs, processedItems)) =>
          let total := Z.max 0 (subtotal - tx_discount parsed) in
          let profit := total - totalCogs in
          let transaction :=
            Receipt.mk processedItems subtotal (tx_discount parsed) total totalCogs
              profit (tx_paymentMethod parsed) (actor_id actor) (actor_name actor)
              now (day_of now) in
          let s2 := add_transaction transaction s1 in
          let s3 := logEvent now "transaction.create" "/transactions" actor
                      [("subtotal", JNum subtotal);
                       ("discount", JNum (tx_discount parsed));
                       ("total", JNum total)] s2 in
          (s3, Success transaction)
      end
  end.

(** ** The manual adjustment handler, [PUT /stock/:productId] *)

Definition putStock (now : Z) (actor : Actor) (productId : string)
    (raw : StockAdjustmentRequest) (s : Store) : Store * response Product.t :=
  if decide (actor_role actor = "cashier") then
    (s, Failure 403 "Only admin or manager can adjust stock")
  else
    match validateStockAdjustment raw with
    | Bad e => (s, Failure 400 e)
    | Ok parsed =>
        match products s !! productId with
        | None => (s, Failure 404 "Product not found")
        | Some product =>
            let newStock := Z.max 0 (Product.stock product + adj_change parsed) in
            let product' := Product.restock product newStock now in
            let s1 := set_product productId product' s in
            let s2 := add_history
                        (History.mk productId (Product.name product)
                           (adj_change parsed) (str_or (adj_type parsed) "adjustment")
                           now (actor_id actor) (actor_name actor)
                           (str_or (adj_reason parsed) "")) s1 in
            let s3 := logEvent now "stock.adjust" "/stock/:productId" actor
                        ([("productId", JStr productId);
                          ("change", JNum (adj_change parsed))]
                         ++ opt_field "type" (adj_type parsed)
                         ++ opt_field "reason" (adj_reason parsed)) s2 in
            (s3, Success product')
        end
    end.

(** ** The order update handler, [PUT /orders/:id] *)

Definition allowedStatus : list string := ["pending"; "shipped"; "delivered"].

(** [updates.status !== undefined && !allowedStatus.includes(updates.status)] *)
Definition status_rejected (updates : Patch.t) : bool :=
  match Patch.status updates with
  | Some st => negb (bool_decide (st ∈ allowedStatus))
  | None => false
  end.

(** The loop over [order.items] of a shipment.  A line whose product is not
    in the store is passed over ([if (productData) { ... }]). *)
Fixpoint ship_lines (now : Z) (actor : Actor) (customer : option string)
    (items : list OrderItem.t) (s : Store) : Store * option (Z * string) :=
  match items with
  | [] => (s, None)
  | item :: rest =>
      match products s !! OrderItem.productId item with
      | Some product =>
          if bool_decide (Product.stock product < OrderItem.quantity item) then
            (s, Some (400, "Insufficient stock for " +:+ Product.name product))
          else
            let s1 := set_product (OrderItem.productId item)
                        (Product.restock product
                           (Product.stock product - OrderItem.quantity item) now) s in
            let s2 := add_history
                        (History.mk (OrderItem.productId item) (Product.name product)
                           (- OrderItem.quantity item) "order" now
                           (actor_id actor) (actor_name actor)
                           ("Order delivery: " +:+ render customer)) s1 in
            ship_lines now actor customer rest s2
      | None => ship_lines now actor customer rest s
      end
  end.

(** [updates.stockReduced = true; updates.shippedAt = ...; updates.shippedBy = ...] *)
Definition stamp_shipped (now : Z) (actor : Actor) (u : Patch.t) : Patch.t :=
  Patch.mk (Patch.status u) (Some true) (Patch.items u) (Patch.totalAmount u)
    (Patch.customerName u) (Some now) (Some (actor_name actor))
    (Patch.deliveredAt u) (Patch.updatedAt u) (Patch.others u).

(** [updates.deliveredAt = ...] *)
Definition stamp_delivered (now : Z) (u : Patch.t) : Patch.t :=
  Patch.mk (Patch.status u) (Patch.stockReduced u) (Patch.items u)
    (Patch.totalAmount u) (Patch.customerName u) (Patch.shippedAt u)
    (Patch.shippedBy u) (Some now) (Patch.updatedAt u) (Patch.others u).

(** An optional field of the order under the spread: the patch wins when it
    has the field. *)
Definition over {A : Type} (old new : option A) : option A :=
  match new with
  | Some v => Some v
  | None => old
  end.

(** [{ ...order, ...updates, updatedAt: new Date().toISOString() }] *)
Definition merge (order : Order.t) (updates : Patch.t) (now : Z) : Order.t :=
  Order.mk
    (default (Order.status order) (Patch.status updates))
    (default (Order.stockReduced order) (Patch.stockReduced updates))
    (default (Order.items order) (Patch.items updates))
    (default (Order.totalAmount order) (Patch.totalAmount updates))
    (over (Order.customerName order) (Patch.customerName updates))
    (over (Order.shippedAt order) (Patch.shippedAt updates))
    (over (Order.shippedBy order) (Patch.shippedBy updates))
    (over (Order.deliveredAt order) (Patch.deliveredAt updates))
    now
    (Patch.others updates ∪ Order.others order).

(** Does this call run the shipment branch?
    [updates.status === 'shipped' && !order.stockReduced] *)
Definition ships (order : Order.t) (updates : Patch.t) : bool :=
  bool_decide (Patch.status updates = Some "shipped") && negb (Order.stockReduced order).

(** The shipment branch: the item loop, then the stamps on [updates] and
    the audit event.  A short stock answers 400 from inside the loop. *)
Definition ship_phase (now : Z) (actor : Actor) (orderId : string)
    (order : Order.t) (updates : Patch.t) (s : Store)
  : Store * (Patch.t + Z * string) :=
  if ships order updates then
    match ship_lines now actor (Order.customerName order) (Order.items order) s with
    | (s1, Some err) => (s1, inr err)
    | (s1, None) =>
        (logEvent now "order.ship" "/orders/:id" actor [("orderId", JStr orderId)] s1,
         inl (stamp_shipped now actor updates))
    end
  else (s, inl updates).

(** [if (updates.status === 'delivered') { ... }] *)
Definition deliver_phase (now : Z) (actor : Actor) (orderId : string)
    (updates : Patch.t) (s : Store) : Store * Patch.t :=
  if bool_decide (Patch.status updates = Some "delivered") then
    (logEvent now "order.deliver" "/orders/:id" actor [("orderId", JStr orderId)] s,
     stamp_delivered now updates)
  else (s, updates).

Definition putOrder (now : Z) (actor : Actor) (orderId : string)
    (updates : Patch.t) (s : Store) : Store * response Order.t :=
  match orders s !! orderId with
  | None => (s, Failure 404 "Order not found")
  | Some order =>
      if status_rejected updates then (s, Failure 400 "Invalid status")
      else
        match ship_phase now actor orderId order updates s with
        | (s1, inr (status, e)) => (s1, Failure status e)
        | (s1, inl updates1) =>
            let (s2, updates2) := deliver_phase now actor orderId updates1 s1 in
            let updatedOrder := merge order updates2 now in
            (set_order orderId updatedOrder s2, Success updatedOrder)
        end
  end.

(** ** Runs of the three stock-mutating entry points *)

Inductive request : Type :=
  | AdjustStock (now : Z) (actor : Actor) (productId : string)
      (raw : StockAdjustmentRequest)
  | CommitTransaction (now : Z) (actor : Actor) (raw : TransactionRequest)
  | UpdateOrder (now : Z) (actor : Actor) (orderId : string) (updates : Patch.t).

Definition handle (s : Store) (r : request) : Store :=
  match r with
  | AdjustStock now actor productId raw => (putStock now actor productId raw s).1
  | CommitTransaction now actor raw => (postTransaction now actor raw s).1
  | UpdateOrder now actor orderId updates => (putOrder now actor orderId updates s).1
  end.

Definition run (s : Store) (rs : list request) : Store := fold_left handle rs s.

(** ** Views of the store used by the statements *)

(** The stock of a product, [0] for a key with no product. *)
Definition stock_of (s : Store) (productId : string) : Z :=
  from_option Product.stock 0 (products s !! productId).












(** ** A small shop, for the concrete runs *)

Definition soap : Product.t := Product.mk "Soap" "Home" 10 4 5 None 0 0.
Definition rice : Product.t := Product.mk "Rice" "Food" 5 2 5 None 0 0.
Definition ann : Actor := mkActor "user-1" "Ann" "manager".

Definition shop : Store :=
  mkStore (<["product:soap" := soap]> (<["product:rice" := rice]> ∅)) ∅ [] [] [].

(** A patch that only asks for a status. *)
Definition ask (st : string) : Patch.t :=
  Patch.mk (Some st) None None None None None None None None ∅.

Definition soap_order : Order.t :=
  Order.mk "pending" false [OrderItem.mk "product:soap" "Soap" 2 10 20] 20
    (Some "Bea") None None None 0 ∅.

Definition shop_with_order : Store := set_order "order:1" soap_order shop.



(** ** A full attempt map, for the concrete runs *)

(** Distinct identifiers, one per number. *)
Fixpoint bits (p : positive) : string :=
  match p with
  | xH => "1"
  | xO p' => String "0" (bits p')
  | xI p' => String "1" (bits p')
  end.

Definition customer (n : nat) : string := bits (Pos.of_succ_nat n).

(** 1000 identifiers, all of them locked out until 1900000. *)
Definition full_map : list (string * RateLimit.attempt) :=
  (fun n => (customer n, RateLimit.Attempt 5 (Some 1900000) (Some 1000000))) <$> seq 0 1000.

(** ** The two rate-limit routes and the calls on the attempt map *)

Module RateLimitApi.
Import RateLimit.

(** [Math.ceil(x / d)] on integers. *)
Definition ceil_div (x d : Z) : Z := - ((- x) / d).

Inductive check_response : Type :=
  | EmailRequired                                        (* 400 *)
  | TooManyAttempts (minutesRemaining : Z) (lockoutUntil : option Z)   (* 429 *)
  | MayAttempt (remainingAttempts : option Z).           (* 200 *)

(** [POST /auth/check-rate-limit].  [!email] holds for a missing or empty
    address. *)
Definition postCheckRateLimit (now : Z) (email : string) (m : jsmap)
  : jsmap * check_response :=
  if decide (email = "") then (m, EmailRequired)
  else
    let rateLimit := checkRateLimit now email m in
    if negb (allowed rateLimit.2) then
      (rateLimit.1,
       TooManyAttempts (ceil_div (default 0 (lockoutDate rateLimit.2) - now) 60000)
         (lockoutDate rateLimit.2))
    else (rateLimit.1, MayAttempt (remainingAttempts rateLimit.2)).

(** [POST /auth/record-attempt]: the attempt is recorded, then the limiter is
    consulted for the number of attempts left. *)
Definition postRecordAttempt (now : Z) (email : string) (success : bool) (m : jsmap)
  : jsmap * check_response :=
  if decide (email = "") then (m, EmailRequired)
  else
    let rateLimit := checkRateLimit now email (recordLoginAttempt now email success m) in
    (rateLimit.1, MayAttempt (remainingAttempts rateLimit.2)).

(** Everything that touches [loginAttempts]. *)
Inductive call : Type :=
  | Check (now : Z) (identifier : string)
  | Record (now : Z) (identifier : string) (success : bool)
  | Sweep (now : Z)
  | CheckRoute (now : Z) (email : string)
  | RecordRoute (now : Z) (email : string) (success : bool).

Definition step (m : jsmap) (c : call) : jsmap :=
  match c with
  | Check now id => (checkRateLimit now id m).1
  | Record now id success => recordLoginAttempt now id success m
  | Sweep now => sweep now m
  | CheckRoute now email => (postCheckRateLimit now email m).1
  | RecordRoute now email success => (postRecordAttempt now email success m).1
  end.

Definition calls (m : jsmap) (cs : list call) : jsmap := fold_left step cs m.

(** Failed attempts through the route, one per time. *)
Definition route_failures (email : string) (times : list Z) (m : jsmap) : jsmap :=
  fold_left (fun acc t => (postRecordAttempt t email false acc).1) times m.

End RateLimitApi.

(** ** Product routes *)















(** ** Order creation and deletion *)

Record OrderRequest : Type := OrderFields {
  or_customerName : option string;
  or_customerPhone : option string;
  or_customerAddress : option string;
  or_items : list LineRequest;
  or_deliveryDate : option string;
  or_deliveryTime : option string;
  or_notes : option string
}.

(** The item loop of [POST /orders]: prices are read, nothing is written. *)
Fixpoint price_lines (items : list LineRequest) (s : Store) (totalAmount : Z)
    (processedItems : list OrderItem.t) : response (Z * list OrderItem.t) :=
  match items with
  | [] => Success (totalAmount, processedItems)
  | item :: rest =>
      match products s !! line_productId item with
      | None => Failure 404 ("Product " +:+ line_productId item +:+ " not found")
      | Some product =>
          let itemTotal := Product.sellingPrice product * line_quantity item in
          price_lines rest s (totalAmount + itemTotal)
            (processedItems ++
               [OrderItem.mk (line_productId item) (Product.name product)
                  (line_quantity item) (Product.sellingPrice product) itemTotal])
      end
  end.

(** The free-form fields of a new order. *)
Definition order_others (now : Z) (actor : Actor) (orderId : string) (raw : OrderRequest)
  : gmap string jval :=
  list_to_map
    ([("id", JStr orderId)]
     ++ opt_field "customerPhone" (or_customerPhone raw)
     ++ opt_field "customerAddress" (or_customerAddress raw)
     ++ opt_field "deliveryDate" (or_deliveryDate raw)
     ++ opt_field "deliveryTime" (or_deliveryTime raw)
     ++ [("notes", JStr (str_or (or_notes raw) ""));
         ("createdBy", JStr (actor_id actor));
         ("createdByName", JStr (actor_name actor));
         ("createdAt", JNum now)]).

(** [POST /orders]; [orderId] is the identifier the handler generates.  The
    handler reads the body as it comes: [validateOrder] is not called. *)
Definition postOrder (now : Z) (actor : Actor) (orderId : string)
    (orderData : OrderRequest) (s : Store) : Store * response Order.t :=
  match price_lines (or_items orderData) s 0 [] with
  | Failure status e => (s, Failure status e)
  | Success (totalAmount, processedItems) =>
      let order :=
        Order.mk "pending" false processedItems totalAmount
          (or_customerName orderData) None None None now
          (order_others now actor orderId orderData) in
      (set_order orderId order s, Success order)
  end.


(** ** Runs of every handler that writes to the store *)






(** ** The daily summary, [GET /transactions/summary] *)



(** ** The listing routes *)

(** The result of [parseInt]: an integer or [NaN]. *)
Inductive js_int : Type :=
  | NaN
  | Int (z : Z).

(** The value of a character as a digit in the given radix. *)
Definition digit_value (radix : Z) (a : ascii) : option Z :=
  let n := Z.of_nat (nat_of_ascii a) in
  let v := if (48 <=? n) && (n <=? 57) then Some (n - 48)
           else if (97 <=? n) && (n <=? 122) then Some (n - 87)
           else if (65 <=? n) && (n <=? 90) then Some (n - 55)
           else None in
  match v with
  | Some d => if d <? radix then Some d else None
  | None => None
  end.

(** The longest prefix of digits, as a number; [acc] is [None] until a
    digit has been read. *)
Fixpoint parse_digits (radix : Z) (s : string) (acc : option Z) : option Z :=
  match s with
  | EmptyString => acc
  | String a s' =>
      match digit_value radix a with
      | Some d => parse_digits radix s' (Some (default 0 acc * radix + d))
      | None => acc
      end
  end.

(** [parseInt(input)] with no radix: leading white space, a sign, an
    optional [0x] prefix, then digits; what follows the digits is
    ignored. *)
Definition parseInt (input : string) : js_int :=
  let s := ltrim input in
  let signed :=
    match s with
    | String "-" s' => (-1, s')
    | String "+" s' => (1, s')
    | _ => (1, s)
    end in
  let prefixed :=
    match signed.2 with
    | String "0" (String "x" s') => (16, s')
    | String "0" (String "X" s') => (16, s')
    | s' => (10, s')
    end in
  match parse_digits prefixed.1 prefixed.2 None with
  | Some z => Int (signed.1 * z)
  | None => NaN
  end.

(** [Array.prototype.sort] with the comparator [key(b) - key(a)]: a stable
    sort, greatest key first. *)
Fixpoint insert_desc {A : Type} (key : A → Z) (x : A) (l : list A) : list A :=
  match l with
  | [] => [x]
  | y :: l' => if bool_decide (key x < key y) then y :: insert_desc key x l' else x :: l
  end.

Definition sort_desc {A : Type} (key : A → Z) (l : list A) : list A :=
  foldr (insert_desc key) [] l.

(** [l.slice(0, limit)] *)
Definition slice_to {A : Type} (limit : js_int) (l : list A) : list A :=
  match limit with
  | NaN => []
  | Int z =>
      if bool_decide (z < 0) then take (Z.to_nat (Z.max (Z.of_nat (length l) + z) 0)) l
      else take (Z.to_nat z) l
  end.




Definition until {A : Type} (date : A → Z) (endDate : option Z) (l : list A) : list A :=
  match endDate with
  | Some d => filter (fun t => date t ≤ d) l
  | None => l
  end.


(** [GET /stock/history] *)
Definition getStockHistory (productId : option string) (limitRaw : option string)
    (s : Store) : list History.t :=
  let limit := parseInt (str_or limitRaw "50") in
  let historyList :=
    match productId with
    | Some (String _ _ as pid) => filter (fun h => History.productId h = pid) (stock_history s)
    | _ => stock_history s
    end in
  slice_to limit (sort_desc History.timestamp historyList).

(** ** Purchases *)

Record PurchaseLineRequest : Type := PurchaseLine {
  pl_itemName : string;
  pl_quantity : Z;
  pl_purchasePrice : Z;
  pl_unit : option string
}.

Record PurchaseRequest : Type := PurchaseFields {
  pq_items : list PurchaseLineRequest;
  pq_supplier : option string;
  pq_supplierName : option string;
  pq_fundingSource : option string;
  pq_fundingOwner : option string;
  pq_purchaseDate : option string
}.

(** The unit of a line: the raw value when it passes [sanitizeString], [pcs]
    when it is missing or does not. *)
Definition purchase_unit (unit : option string) : string :=
  match unit with
  | None => "pcs"
  | Some raw =>
      match sanitizeString raw 20 with
      | Ok _ => raw
      | Bad _ => "pcs"
      end
  end.

(** The item loop of [validatePurchase]. *)
Fixpoint normalize_purchase_lines (items : list PurchaseLineRequest)
  : checked (list PurchaseLineRequest) :=
  match items with
  | [] => Ok []
  | item :: rest =>
      match sanitizeString (pl_itemName item) 120 with
      | Bad e => Bad ("items.itemName: " +:+ e)
      | Ok name =>
          match sanitizeNumber (pl_quantity item) (Some 1) None with
          | Bad e => Bad ("items.quantity: " +:+ e)
          | Ok qty =>
              match sanitizeNumber (pl_purchasePrice item) (Some 0) None with
              | Bad e => Bad ("items.purchasePrice: " +:+ e)
              | Ok price =>
                  match normalize_purchase_lines rest with
                  | Bad e => Bad e
                  | Ok normalized =>
                      Ok (PurchaseLine name qty price (Some (purchase_unit (pl_unit item)))
                            :: normalized)
                  end
              end
          end
      end
  end.

(** The supplier: [supplier] when the request has it, else [supplierName]. *)
Definition sanitizeSupplier (data : PurchaseRequest) : checked (option string) :=
  match pq_supplier data with
  | Some _ => sanitizeOptional "supplier" (pq_supplier data) 120
  | None => sanitizeOptional "supplierName" (pq_supplierName data) 120
  end.

Definition validatePurchase (data : PurchaseRequest) : checked PurchaseRequest :=
  match pq_items data with
  | [] => Bad "items: must be non-empty array"
  | items =>
      match normalize_purchase_lines items with
      | Bad e => Bad e
      | Ok normalized =>
      match sanitizeSupplier data with
      | Bad e => Bad e
      | Ok supplier =>
      match sanitizeOptional "fundingSource" (pq_fundingSource data) 40 with
      | Bad e => Bad e
      | Ok fundingSource =>
      match sanitizeOptional "fundingOwner" (pq_fundingOwner data) 120 with
      | Bad e => Bad e
      | Ok fundingOwner =>
      match sanitizeOptional "purchaseDate" (pq_purchaseDate data) 20 with
      | Bad e => Bad e
      | Ok purchaseDate =>
          Ok (PurchaseFields normalized supplier None fundingSource fundingOwner purchaseDate)
      end end end end end
  end.

Module PurchaseItem.
Record t : Type := mk {
  itemName : string;
  quantity : Z;
  unit : string;
  purchasePrice : Z;
  total : Z
}.
End PurchaseItem.

(** The date of a purchase: the text of the request, or the day of the
    call. *)
Inductive purchase_day : Type :=
  | Given (date : string)
  | DayOf (day : Z).

Module Purchase.
Record t : Type := mk {
  supplier : string;
  fundingSource : string;
  fundingOwner : string;
  items : list PurchaseItem.t;
  totalAmount : Z;
  purchaseDate : purchase_day;
  createdBy : string;
  createdByName : string;
  createdAt : Z;
  updatedAt : Z
}.
End Purchase.

(** The store with its [purchase:] documents. *)
Record Books : Type := mkBooks {
  ledger : Store;
  purchases : gmap string Purchase.t
}.

(** The item loop of [POST /purchases]. *)
Fixpoint cost_lines (items : list PurchaseLineRequest) (totalAmount : Z)
    (processedItems : list PurchaseItem.t) : Z * list PurchaseItem.t :=
  match items with
  | [] => (totalAmount, processedItems)
  | item :: rest =>
      let itemTotal := pl_purchasePrice item * pl_quantity item in
      cost_lines rest (totalAmount + itemTotal)
        (processedItems ++
           [PurchaseItem.mk (pl_itemName item) (pl_quantity item)
              (default "pcs" (pl_unit item)) (pl_purchasePrice item) itemTotal])
  end.

(** [POST /purchases]; [purchaseId] is the identifier the handler
    generates. *)
Definition postPurchase (now : Z) (actor : Actor) (purchaseId : string)
    (raw : PurchaseRequest) (b : Books) : Books * response Purchase.t :=
  if decide (actor_role actor = "cashier") then
    (b, Failure 403 "Only admin or manager can create purchases")
  else
    match validatePurchase raw with
    | Bad e => (b, Failure 400 e)
    | Ok parsed =>
        let costed := cost_lines (pq_items parsed) 0 [] in
        let purchase :=
          Purchase.mk (str_or (pq_supplier parsed) "")
            (str_or (pq_fundingSource parsed) "company")
            (str_or (pq_fundingOwner parsed) "")
            costed.2 costed.1
            (match pq_purchaseDate parsed with
             | Some (String _ _ as d) => Given d
             | _ => DayOf (day_of now)
             end)
            (actor_id actor) (actor_name actor) now now in
        (mkBooks
           (logEvent now "purchase.create" "/purchases" actor
              [("purchaseId", JStr purchaseId); ("totalAmount", JNum costed.1)] (ledger b))
           (<[purchaseId := purchase]> (purchases b)),
         Success purchase)
    end.

(** [DELETE /purchases/:id] *)
Definition deletePurchase (now : Z) (actor : Actor) (purchaseId : string) (b : Books)
  : Books * response unit :=
  if decide (actor_role actor = "manager") then
    (mkBooks
       (logEvent now "purchase.delete" "/purchases/:id" actor
          [("purchaseId", JStr purchaseId)] (ledger b))
       (delete purchaseId (purchases b)),
     Success tt)
  else (b, Failure 403 "Only manager can delete purchases").

(** A string that does not start with white space. *)
Definition clean_head (s : string) : Prop :=
  match s with
  | EmptyString => True
  | String a _ => is_space a = false
  end.

(** ** The product report, [GET /reports/products] *)









(** * Properties *)

(** ** The login rate limiter *)

Section RateLimitFacts.
Import RateLimit.

Implicit Types (m : jsmap) (k id : string) (v a : attempt).

Lemma get_set_eq k v m : attempts_get k (attempts_set k v m) = Some v.
Proof.
  induction m as [|[k' v'] m IH]; simpl.
  - by rewrite decide_True.
  - destruct (decide (k' = k)) as [->|Hne]; simpl.
    + by rewrite decide_True.
    + by rewrite decide_False.
Qed.

Lemma get_delete_eq k m : attempts_get k (attempts_delete k m) = None.
Proof.
  unfold attempts_delete.
  induction m as [|[k' v'] m IH]; [done|].
  rewrite filter_cons. simpl. destruct (decide (k' ≠ k)) as [Hne|Heq]; simpl.
  - by rewrite decide_False.
  - done.
Qed.

Lemma get_delete_ne k k' m :
  k' ≠ k → attempts_get k (attempts_delete k' m) = attempts_get k m.
Proof.
  intros Hne. unfold attempts_delete.
  induction m as [|[k0 v0] m IH]; [done|].
  rewrite filter_cons. simpl. destruct (decide (k0 ≠ k')) as [H0|H0]; simpl.
  - by rewrite IH.
  - apply dec_stable in H0. subst k0. by rewrite decide_False.
Qed.

Lemma get_None_keys k m : attempts_get k m = None → k ∉ m.*1.
Proof.
  induction m as [|[k' v'] m IH]; simpl; [intros _; apply not_elem_of_nil|].
  destruct (decide (k' = k)); [done|]. intros H%IH.
  rewrite not_elem_of_cons. split; [congruence|done].
Qed.

(** A new key goes to the end of the map; a key already there keeps its
    place and the size. *)
Lemma set_None k v m : attempts_get k m = None → attempts_set k v m = m ++ [(k, v)].
Proof.
  induction m as [|[k' v'] m IH]; simpl; [done|].
  destruct (decide (k' = k)); [done|]. intros H. by rewrite IH.
Qed.

Lemma set_Some_length k v m :
  is_Some (attempts_get k m) → length (attempts_set k v m) = length m.
Proof.
  induction m as [|[k' v'] m IH]; simpl; [by intros [? ?]|].
  destruct (decide (k' = k)); simpl; [done|]. intros H. by rewrite IH.
Qed.

Lemma set_counts k v m :
  0 ≤ count v →
  Forall (fun kv => 0 ≤ count kv.2) m →
  Forall (fun kv => 0 ≤ count kv.2) (attempts_set k v m).
Proof.
  intros Hv. induction 1 as [|[k' v'] m Hx Hm IH]; simpl.
  - by constructor.
  - destruct (decide (k' = k)); constructor; done.
Qed.

Lemma get_count_nonneg k a m :
  Forall (fun kv => 0 ≤ count kv.2) m → attempts_get k m = Some a → 0 ≤ count a.
Proof.
  induction 1 as [|[k' v'] m Hx Hm IH]; simpl; [done|].
  destruct (decide (k' = k)); [by intros [= <-]|done].
Qed.

Lemma delete_length k m : (length (attempts_delete k m) ≤ length m)%nat.
Proof. apply length_filter. Qed.

Lemma delete_counts k m :
  Forall (fun kv => 0 ≤ count kv.2) m →
  Forall (fun kv => 0 ≤ count kv.2) (attempts_delete k m).
Proof.
  rewrite !Forall_forall. intros Hm kv Hin.
  apply list_elem_of_filter in Hin as [_ Hin]. by apply Hm.
Qed.

Lemma delete_all_get k ks m :
  k ∉ ks →
  attempts_get k (fold_left (fun acc k' => attempts_delete k' acc) ks m)
  = attempts_get k m.
Proof.
  revert m. induction ks as [|k' ks IH]; intros m Hk; simpl; [done|].
  apply not_elem_of_cons in Hk as [Hne Hk].
  rewrite IH by done. by apply get_delete_ne.
Qed.

Lemma delete_all_length ks m :
  (length (fold_left (fun acc k' => attempts_delete k' acc) ks m) ≤ length m)%nat.
Proof.
  revert m. induction ks as [|k' ks IH]; intros m; simpl; [done|].
  etrans; [apply IH|apply delete_length].
Qed.

Lemma delete_all_counts ks m :
  Forall (fun kv => 0 ≤ count kv.2) m →
  Forall (fun kv => 0 ≤ count kv.2)
    (fold_left (fun acc k' => attempts_delete k' acc) ks m).
Proof.
  revert m. induction ks as [|k' ks IH]; intros m Hm; simpl; [done|].
  apply IH. by apply delete_counts.
Qed.

(** The bulk eviction removes at least the oldest entry. *)
Lemma evict_length m : m ≠ [] → (length (evict_oldest m) < length m)%nat.
Proof.
  destruct m as [|[k v] m]; [done|]. intros _.
  unfold evict_oldest. simpl.
  eapply Nat.le_lt_trans; [apply delete_all_length|].
  unfold attempts_delete. rewrite filter_cons. simpl.
  rewrite decide_False by (intros H; by apply H).
  pose proof (length_filter (fun kv : string * attempt => kv.1 ≠ k) m). lia.
Qed.

Lemma wf_nil : wf [].
Proof. split; simpl; [lia|constructor]. Qed.

Lemma wf_delete k m : wf m → wf (attempts_delete k m).
Proof.
  intros [Hlen Hc]. split; [|by apply delete_counts].
  pose proof (delete_length k m). lia.
Qed.

Lemma wf_sweep now m : wf m → wf (sweep now m).
Proof.
  intros [Hlen Hc]. unfold sweep. split.
  - pose proof (length_filter (fun kv : string * attempt => ¬ lockout_over now kv.2) m). lia.
  - rewrite !Forall_forall in *. intros kv Hin.
    apply list_elem_of_filter in Hin as [_ Hin]. by apply Hc.
Qed.

Lemma wf_check now id m : wf m → wf (checkRateLimit now id m).1.
Proof.
  intros [Hlen Hc]. unfold checkRateLimit.
  destruct (lockout_active now _); [done|].
  destruct (attempts_get id m) as [a|] eqn:Hg; simpl; [|done].
  pose proof (get_count_nonneg _ _ _ Hc Hg) as Ha.
  destruct (truthy _ && _); [|case_bool_decide; [|done]]; simpl.
  all: split; [rewrite set_Some_length; [done|by rewrite Hg]|by apply set_counts].
Qed.

(** One failed attempt: the record of the identifier afterwards, whether
    or not the bulk eviction ran. *)
Lemma record_failure_get now id m :
  wf m →
  wf (recordLoginAttempt now id false m)
  ∧ attempts_get id (recordLoginAttempt now id false m)
    = Some (Attempt (count_or_0 (attempts_get id m) + 1) None (Some now)).
Proof.
  intros [Hlen Hc]. unfold recordLoginAttempt.
  set (v := Attempt _ None (Some now)).
  assert (Hv : 0 ≤ count v).
  { subst v; simpl. destruct (attempts_get id m) as [a|] eqn:Hg; simpl; [|lia].
    pose proof (get_count_nonneg _ _ _ Hc Hg). lia. }
  destruct (attempts_get id m) as [a|] eqn:Hg.
  - rewrite bool_decide_eq_false_2.
    + split; [split|apply get_set_eq].
      * rewrite set_Some_length; [done|]. by rewrite Hg.
      * by apply set_counts.
    + rewrite set_Some_length; [lia|]. by rewrite Hg.
  - rewrite set_None by done. case_bool_decide as Hbig.
    + split; [split|].
      * assert (m ++ [(id, v)] ≠ []) as Hne by (by destruct m).
        pose proof (evict_length _ Hne) as Hlt.
        rewrite length_app in Hlt. simpl in Hlt. lia.
      * apply delete_all_counts. apply Forall_app. split; [done|]. by repeat constructor.
      * unfold evict_oldest. rewrite delete_all_get.
        -- rewrite <- (set_None id v m) by done. apply get_set_eq.
        -- rewrite length_app in Hbig. simpl in Hbig.
           rewrite take_app_le by lia.
           intros Hin. apply get_None_keys in Hg. apply Hg.
           apply list_elem_of_fmap in Hin as (kv & -> & Hin).
           apply list_elem_of_fmap. exists kv. split; [done|].
           eapply subseteq_take, Hin.
    + split; [split|].
      * rewrite length_app in *. simpl in *. lia.
      * apply Forall_app. split; [done|]. by repeat constructor.
      * rewrite <- (set_None id v m) by done. apply get_set_eq.
Qed.

Lemma record_failures_get id times m :
  wf m → times ≠ [] →
  wf (record_failures id times m)
  ∧ attempts_get id (record_failures id times m)
    = Some (Attempt (count_or_0 (attempts_get id m) + Z.of_nat (length times))
              None (last times)).
Proof.
  revert m. induction times as [|t times IH]; intros m Hwf Hne; [done|].
  destruct (record_failure_get t id m Hwf) as [Hwf1 Hget1].
  destruct times as [|t' times].
  - change (record_failures id [t] m) with (recordLoginAttempt t id false m).
    split; [done|]. by rewrite Hget1.
  - change (record_failures id (t :: t' :: times) m)
      with (record_failures id (t' :: times) (recordLoginAttempt t id false m)).
    destruct (IH _ Hwf1) as [Hwf2 Hget2]; [done|].
    split; [done|]. rewrite Hget2, Hget1. simpl count_or_0.
    f_equal. f_equal. rewrite !length_cons. lia.
Qed.

Lemma wf_record_failures id times m : wf m → wf (record_failures id times m).
Proof.
  intros Hwf. destruct times as [|t times]; [done|].
  by apply record_failures_get.
Qed.

(** A check right after failures only: the record carries no lock-out
    date, so the outcome depends on the window and on the counter. *)
Lemma check_after_failures now id m c t :
  attempts_get id m = Some (Attempt c None (Some t)) →
  (c < MAX_LOGIN_ATTEMPTS → allowed (checkRateLimit now id m).2 = true)
  ∧ (MAX_LOGIN_ATTEMPTS ≤ c → now - t ≤ ATTEMPT_WINDOW →
     checkRateLimit now id m
     = (attempts_set id (Attempt c (Some (now + LOCKOUT_DURATION)) (Some now)) m,
        Result false None (Some (now + LOCKOUT_DURATION)))).
Proof.
  intros Hget. unfold checkRateLimit. rewrite Hget. simpl.
  split.
  - intros Hc. destruct (negb (t =? 0) && _); [done|].
    by rewrite bool_decide_eq_false_2 by lia.
  - intros Hc Ht.
    rewrite (bool_decide_eq_false_2 (ATTEMPT_WINDOW < now - t)) by lia.
    rewrite andb_false_r. by rewrite bool_decide_eq_true_2 by lia.
Qed.

(** C6. Five consecutive failed attempts of an identifier, then a check
    issued within the attempt window: the check denies and sets the
    lock-out to 15 minutes after the check, while the record left by the
    fifth failure has no lock-out date yet.  One successful attempt
    removes the record of the identifier; from there fewer than five
    failures never lead to a denial and five failures do again. *)
Theorem rate_limiter_lockout id m before t0 times now :
  wf m →
  length times = 5%nat →
  (∀ t, last times = Some t → now - t ≤ ATTEMPT_WINDOW) →
  let m5 := record_failures id times m in
  let cleared := recordLoginAttempt t0 id true (record_failures id before m) in
  (attempts_get id m5 ≫= lockoutUntil) = None
  ∧ (checkRateLimit now id m5).2 = Result false None (Some (now + 15 * 60 * 1000))
  ∧ (attempts_get id (checkRateLimit now id m5).1 ≫= lockoutUntil)
    = Some (now + 15 * 60 * 1000)
  ∧ attempts_get id cleared = None
  ∧ (∀ fewer now', (length fewer < 5)%nat →
       allowed (checkRateLimit now' id (record_failures id fewer cleared)).2 = true)
  ∧ (checkRateLimit now id (record_failures id times cleared)).2
    = Result false None (Some (now + 15 * 60 * 1000)).
Proof.
  intros Hwf Hlen Hwin m5 cleared.
  assert (Hne : times ≠ []) by (by destruct times).
  destruct (last times) as [t5|] eqn:Hlast;
    [|by apply last_None in Hlast].
  specialize (Hwin t5 eq_refl).
  assert (Hcleared : attempts_get id cleared = None) by apply get_delete_eq.
  assert (Hwfc : wf cleared).
  { apply wf_delete. by apply wf_record_failures. }
  destruct (record_failures_get id times m Hwf Hne) as [_ Hm5].
  fold m5 in Hm5. rewrite Hlen, Hlast in Hm5.
  assert (0 ≤ count_or_0 (attempts_get id m)) as Hc0.
  { destruct Hwf as [_ Hc]. destruct (attempts_get id m) as [a|] eqn:Hg; simpl; [|lia].
    by eapply get_count_nonneg. }
  destruct (check_after_failures now id m5 _ _ Hm5) as [_ Hlock].
  rewrite Hlock by (unfold MAX_LOGIN_ATTEMPTS; lia || done).
  cbn [fst snd].
  split; [by rewrite Hm5|]. split; [done|]. split; [by rewrite get_set_eq|].
  split; [done|]. split.
  - intros fewer now' Hfew. destruct fewer as [|f fewer].
    + simpl. unfold checkRateLimit. by rewrite Hcleared.
    + destruct (record_failures_get id (f :: fewer) cleared Hwfc) as [_ Hg]; [done|].
      rewrite Hcleared in Hg. simpl count_or_0 in Hg.
      destruct (last (f :: fewer)) as [tl|] eqn:Hl; [|by apply last_None in Hl].
      eapply check_after_failures; [exact Hg|].
      unfold MAX_LOGIN_ATTEMPTS. lia.
  - destruct (record_failures_get id times cleared Hwfc Hne) as [_ Hg].
    rewrite Hcleared, Hlen, Hlast in Hg. simpl count_or_0 in Hg.
    destruct (check_after_failures now id _ _ _ Hg) as [_ Hlock'].
    by rewrite Hlock' by (unfold MAX_LOGIN_ATTEMPTS; lia || done).
Qed.

Lemma rate_limiter_lockout_witness :
  (checkRateLimit 6000 "ann@shop.test"
     (record_failures "ann@shop.test" [1000; 2000; 3000; 4000; 5000] [])).2
  = Result false None (Some 906000).
Proof.
  refine (proj1 (proj2
    (rate_limiter_lockout "ann@shop.test" [] [] 0 [1000; 2000; 3000; 4000; 5000]
       6000 _ _ _))).
  - split; simpl; [lia|constructor].
  - reflexivity.
  - intros t Ht. simpl in Ht. injection Ht as <-. vm_compute. discriminate.
Defined.

(** C9. A check issued more than 15 minutes after the last recorded
    attempt of an identifier that is not locked out: the counter goes
    back to 0 and the check allows, with all 5 attempts remaining. *)
Theorem window_expiry_forgiveness id m a t0 now :
  attempts_get id m = Some a →
  lockout_active now (Some a) = false →
  lastAttemptAt a = Some t0 →
  t0 ≠ 0 →
  15 * 60 * 1000 < now - t0 →
  (checkRateLimit now id m).2 = Result true (Some 5) None
  ∧ attempts_get id (checkRateLimit now id m).1 = Some (Attempt 0 None None).
Proof.
  intros Hget Hlock Hlast Ht0 Hold.
  unfold checkRateLimit. rewrite Hget, Hlock.
  unfold window_expired. rewrite Hlast. simpl.
  rewrite (proj2 (Z.eqb_neq t0 0)) by done. simpl.
  rewrite bool_decide_eq_true_2 by (unfold ATTEMPT_WINDOW; lia).
  split; [done|]. apply get_set_eq.
Qed.

Lemma window_expiry_forgiveness_witness :
  let m := record_failures "ann@shop.test" [1000; 2000; 3000] [] in
  (checkRateLimit 903001 "ann@shop.test" m).2 = Result true (Some 5) None
  ∧ attempts_get "ann@shop.test" (checkRateLimit 903001 "ann@shop.test" m).1
    = Some (Attempt 0 None None).
Proof.
  apply (window_expiry_forgiveness "ann@shop.test" _ (Attempt 3 None (Some 3000))
           3000 903001).
  - reflexivity.
  - reflexivity.
  - reflexivity.
  - discriminate.
  - lia.
Defined.

End RateLimitFacts.

(** ** The store: what each write touches *)

Section StoreFacts.

Implicit Types (s : Store) (p : Product.t) (k pid : string).





(** *** The sale loop *)



(** *** The shipment loop *)



(** *** The three handlers *)













End StoreFacts.

(** ** Stock never negative, and the ledger *)

Section StockInvariants.







End StockInvariants.

(** ** Sales *)

Section Sales.









End Sales.

(** ** Delivery orders *)

Section Orders.


(** The shipment loop neither adds nor removes a product. *)
Lemma ship_lines_missing now actor c items s k :
  products s !! k = None → products (ship_lines now actor c items s).1 !! k = None.
Proof.
  revert s. induction items as [|item rest IH]; intros s Hk; simpl; [done|].
  destruct (products s !! OrderItem.productId item) as [p|] eqn:Hp; [|by apply IH].
  case_bool_decide; [done|]. apply IH. simpl.
  rewrite lookup_insert_ne; [done|]. intros <-. congruence.
Qed.




(** An update that does not enter the shipment branch. *)
Lemma putOrder_no_ship now actor oid u s o :
  orders s !! oid = Some o →
  status_rejected u = false →
  ships o u = false →
  putOrder now actor oid u s
  = (set_order oid (merge o (deliver_phase now actor oid u s).2 now)
       (deliver_phase now actor oid u s).1,
     Success (merge o (deliver_phase now actor oid u s).2 now)).
Proof.
  intros Ho Hr Hs. unfold putOrder, ship_phase. rewrite Ho, Hr, Hs.
  by destruct (deliver_phase now actor oid u s).
Qed.

Lemma deliver_phase_fields now actor oid u s :
  let u2 := (deliver_phase now actor oid u s).2 in
  Patch.status u2 = Patch.status u
  ∧ Patch.stockReduced u2 = Patch.stockReduced u
  ∧ orders (deliver_phase now actor oid u s).1 = orders s.
Proof. unfold deliver_phase. by case_bool_decide. Qed.

(** Every update that answers with an order has stored that order; its
    status is the requested one when one was requested. *)
Lemma putOrder_success now actor oid u s s' o' :
  putOrder now actor oid u s = (s', Success o') →
  orders s' !! oid = Some o'
  ∧ ∃ o, orders s !! oid = Some o
         ∧ Order.status o' = default (Order.status o) (Patch.status u)
         ∧ (ships o u = true → Order.stockReduced o' = true).
Proof.
  unfold putOrder. destruct (orders s !! oid) as [o|] eqn:Ho; [|done].
  destruct (status_rejected u); [done|].
  unfold ship_phase. destruct (ships o u) eqn:Hships.
  - destruct (ship_lines _ _ _ _ _) as [s1 [err|]]; [by destruct err|].
    destruct (deliver_phase_fields now actor oid (stamp_shipped now actor u)
                (logEvent now "order.ship" "/orders/:id" actor [("orderId", JStr oid)] s1))
      as (Hst & Hsr & _).
    destruct (deliver_phase _ _ _ _ _) as [s2 u2]. simpl in *.
    intros Heq. injection Heq as <- <-. simpl.
    rewrite lookup_insert_eq, Hst, Hsr. eauto.
  - destruct (deliver_phase_fields now actor oid u s) as (Hst & _ & _).
    destruct (deliver_phase _ _ _ _ _) as [s2 u2]. simpl in *.
    intros Heq. injection Heq as <- <-. simpl.
    rewrite lookup_insert_eq, Hst. split; [done|].
    exists o. split; [done|]. split; [done|]. intros; congruence.
Qed.

(** C3, the claim as stated fails: a delivered order goes back to pending
    on request. *)
Lemma order_status_forward_only_counterexample :
  let delivered :=
    run shop_with_order
      [UpdateOrder 1 ann "order:1" (ask "shipped");
       UpdateOrder 2 ann "order:1" (ask "delivered")] in
  let reopened := run delivered [UpdateOrder 3 ann "order:1" (ask "pending")] in
  Order.status <$> orders delivered !! "order:1" = Some "delivered"
  ∧ Order.status <$> orders reopened !! "order:1" = Some "pending".
Proof. vm_compute. done. Qed.

(** C3, amended. A requested status outside pending, shipped, delivered is
    rejected with 400 and nothing is written.  A requested status among
    the three is stored whatever the current status of the order: the
    handler does not compare it with the current one, so the update
    succeeds whenever it does not have to run a shipment, and every update
    that succeeds leaves the order with the requested status. *)
Theorem order_status_update now actor oid u s o st :
  orders s !! oid = Some o →
  Patch.status u = Some st →
  (st ∉ allowedStatus → putOrder now actor oid u s = (s, Failure 400 "Invalid status"))
  ∧ (st ∈ allowedStatus → ships o u = false →
     ∃ s' o', putOrder now actor oid u s = (s', Success o')
              ∧ Order.status o' = st ∧ orders s' !! oid = Some o')
  ∧ (∀ s' o', putOrder now actor oid u s = (s', Success o') →
              Order.status o' = st ∧ orders s' !! oid = Some o').
Proof.
  intros Ho Hst.
  assert (Hall : ∀ s' o', putOrder now actor oid u s = (s', Success o') →
                          Order.status o' = st ∧ orders s' !! oid = Some o').
  { intros s' o' Hrun. apply putOrder_success in Hrun as (Hs' & o0 & Ho0 & Hstatus & _).
    rewrite Hstatus, Hst. done. }
  split; [|split; [|done]].
  - intros Hout. unfold putOrder, status_rejected. rewrite Ho, Hst.
    by rewrite bool_decide_eq_false_2.
  - intros Hin Hships.
    assert (Hok : status_rejected u = false).
    { unfold status_rejected. rewrite Hst. by rewrite bool_decide_eq_true_2. }
    pose proof (putOrder_no_ship now actor oid u s o Ho Hok Hships) as Hrun.
    eexists _, _. split; [exact Hrun|]. by apply Hall.
Qed.

Lemma order_status_update_witness :
  ∃ s' o',
    putOrder 3 ann "order:1" (ask "delivered") shop_with_order = (s', Success o')
    ∧ Order.status o' = "delivered" ∧ orders s' !! "order:1" = Some o'.
Proof.
  refine (proj1 (proj2
    (order_status_update 3 ann "order:1" (ask "delivered") shop_with_order
       soap_order "delivered" _ _)) _ _).
  - reflexivity.
  - reflexivity.
  - unfold allowedStatus. apply (bool_decide_unpack _). reflexivity.
  - reflexivity.
Defined.










(** C10, the claim as stated fails: the [updatedAt] and, with [delivered],
    the [deliveredAt] of the patch are not what is stored, and a request
    for [delivered] also writes an audit document. *)
Lemma order_update_frame_counterexample :
  let u := Patch.mk (Some "delivered") None None None None None None (Some 1) (Some 1) ∅ in
  let r := putOrder 7 ann "order:1" u shop_with_order in
  ships soap_order u = false
  ∧ Order.updatedAt <$> orders r.1 !! "order:1" = Some 7
  ∧ Order.deliveredAt <$> orders r.1 !! "order:1" = Some (Some 7)
  ∧ audit_log shop_with_order = []
  ∧ length (audit_log r.1) = 1%nat.
Proof. vm_compute. done. Qed.

(** C10, amended. An update that does not run the shipment writes no
    product, no history entry and no receipt.  With a status outside the
    three it is rejected and writes nothing at all.  Otherwise it stores
    the order with every field of the patch in place of the old value,
    [stockReduced], [items] and [totalAmount] included and unchecked, save
    for [updatedAt], which is always the time of the call, and for
    [deliveredAt] when the patch asks for [delivered], which is the time of
    the call too; a request for [delivered] also adds one audit event. *)
Theorem order_update_frame now actor oid u s o :
  orders s !! oid = Some o →
  ships o u = false →
  let r := putOrder now actor oid u s in
  let delivered := bool_decide (Patch.status u = Some "delivered") in
  products r.1 = products s
  ∧ stock_history r.1 = stock_history s
  ∧ transactions r.1 = transactions s
  ∧ (status_rejected u = true → r = (s, Failure 400 "Invalid status"))
  ∧ (status_rejected u = false →
     ∃ o', r.2 = Success o'
       ∧ orders r.1 = <[oid := o']> (orders s)
       ∧ audit_log r.1
         = audit_log s
           ++ (if delivered
               then [Audit.mk "order.deliver" "/orders/:id" (actor_id actor)
                       (actor_name actor) [("orderId", JStr oid)] now]
               else [])
       ∧ Order.status o' = default (Order.status o) (Patch.status u)
       ∧ Order.stockReduced o' = default (Order.stockReduced o) (Patch.stockReduced u)
       ∧ Order.items o' = default (Order.items o) (Patch.items u)
       ∧ Order.totalAmount o' = default (Order.totalAmount o) (Patch.totalAmount u)
       ∧ Order.customerName o' = over (Order.customerName o) (Patch.customerName u)
       ∧ Order.shippedAt o' = over (Order.shippedAt o) (Patch.shippedAt u)
       ∧ Order.shippedBy o' = over (Order.shippedBy o) (Patch.shippedBy u)
       ∧ (∀ k v, Patch.others u !! k = Some v → Order.others o' !! k = Some v)
       ∧ (∀ k, Patch.others u !! k = None → Order.others o' !! k = Order.others o !! k)
       ∧ Order.updatedAt o' = now
       ∧ Order.deliveredAt o'
         = if delivered then Some now
           else over (Order.deliveredAt o) (Patch.deliveredAt u)).
Proof.
  intros Ho Hships r delivered. subst r.
  destruct (status_rejected u) eqn:Hrej.
  - assert (putOrder now actor oid u s = (s, Failure 400 "Invalid status")) as ->.
    { unfold putOrder. by rewrite Ho, Hrej. }
    by repeat split.
  - rewrite (putOrder_no_ship now actor oid u s o Ho Hrej Hships).
    unfold deliver_phase. fold delivered.
    split; [by destruct delivered|]. split; [by destruct delivered|].
    split; [by destruct delivered|]. split; [done|]. intros _.
    eexists. split; [done|].
    destruct delivered; simpl; rewrite ?app_nil_r; repeat split; try done.
    all: try (intros k v Hk; by apply lookup_union_Some_l).
    all: intros k Hk; by rewrite lookup_union_r.
Qed.

Lemma order_update_frame_witness :
  let u := Patch.mk None (Some true) (Some []) (Some 0) None None None None None ∅ in
  let r := putOrder 7 ann "order:1" u shop_with_order in
  products r.1 = products shop_with_order
  ∧ stock_history r.1 = stock_history shop_with_order
  ∧ Order.stockReduced <$> orders r.1 !! "order:1" = Some true.
Proof.
  intros u r.
  destruct (order_update_frame 7 ann "order:1" u shop_with_order soap_order)
    as (Hp & Hh & _ & _ & Hok).
  - reflexivity.
  - reflexivity.
  - destruct Hok as (o' & _ & Ho' & _ & _ & Hsr & _); [reflexivity|].
    split; [exact Hp|]. split; [exact Hh|].
    fold r in Ho'. rewrite Ho', lookup_insert_eq. simpl. by rewrite Hsr.
Defined.

End Orders.

(** ** The rate-limit routes and the life of a lock-out *)

Section RateLimitRoutes.
Import RateLimit RateLimitApi.

Implicit Types (m : jsmap) (k id email : string) (v a : attempt).

Lemma set_keys k v m :
  (attempts_set k v m).*1
  = if attempts_get k m is Some _ then m.*1 else m.*1 ++ [k].
Proof.
  induction m as [|[k' v'] m IH]; csimpl; [done|].
  destruct (decide (k' = k)) as [->|]; csimpl; [done|].
  rewrite IH. by destruct (attempts_get k m).
Qed.

Lemma set_NoDup k v m : NoDup m.*1 → NoDup (attempts_set k v m).*1.
Proof.
  intros Hm. rewrite set_keys.
  destruct (attempts_get k m) eqn:Hg; [done|].
  apply NoDup_app. split; [done|]. split; [|apply NoDup_singleton].
  intros x Hx ->%list_elem_of_singleton. by apply get_None_keys in Hg.
Qed.

Lemma filter_keys_NoDup (P : string * attempt → Prop) `{!∀ x, Decision (P x)} m :
  NoDup m.*1 → NoDup (filter P m).*1.
Proof.
  intros Hm. apply (sublist_NoDup (filter P m).*1 m.*1); [done|].
  apply fmap_sublist, sublist_filter.
Qed.

Lemma delete_all_NoDup ks m :
  NoDup m.*1 → NoDup (fold_left (fun acc k' => attempts_delete k' acc) ks m).*1.
Proof.
  revert m. induction ks as [|k ks IH]; intros m Hm; simpl; [done|].
  apply IH. by apply filter_keys_NoDup.
Qed.

Lemma record_NoDup now id success m :
  NoDup m.*1 → NoDup (recordLoginAttempt now id success m).*1.
Proof.
  intros Hm. unfold recordLoginAttempt. destruct success.
  - by apply filter_keys_NoDup.
  - case_bool_decide; [apply delete_all_NoDup|]; by apply set_NoDup.
Qed.

Lemma check_NoDup now id m : NoDup m.*1 → NoDup (checkRateLimit now id m).1.*1.
Proof.
  intros Hm. unfold checkRateLimit.
  destruct (lockout_active now _); [done|].
  destruct (window_expired now _); [by apply set_NoDup|].
  destruct (attempts_get id m); [|done].
  case_bool_decide; [by apply set_NoDup|done].
Qed.

Lemma wf_record now id success m : wf m → wf (recordLoginAttempt now id success m).
Proof.
  intros Hwf. destruct success.
  - by apply wf_delete.
  - by apply record_failure_get.
Qed.

Lemma step_invariant m c :
  NoDup m.*1 → wf m → NoDup (step m c).*1 ∧ wf (step m c).
Proof.
  intros Hnd Hwf.
  destruct c as [now id|now id success|now|now email|now email success]; simpl.
  - split; [by apply check_NoDup|by apply wf_check].
  - split; [by apply record_NoDup|by apply wf_record].
  - split; [by apply filter_keys_NoDup|by apply wf_sweep].
  - unfold postCheckRateLimit. case_decide; [done|].
    destruct (negb _); simpl; (split; [by apply check_NoDup|by apply wf_check]).
  - unfold postRecordAttempt. case_decide; [done|]. simpl.
    split; [by apply check_NoDup, record_NoDup|by apply wf_check, wf_record].
Qed.

(** X1. Whatever is called on the attempt map, in any order and for any
    identifiers, starting from the empty map: the keys stay distinct, there
    are never more than 1000 of them once a call has returned, and no
    counter is negative. *)
Theorem attempts_map_invariant (cs : list call) :
  NoDup (calls [] cs).*1
  ∧ (length (calls [] cs) ≤ 1000)%nat
  ∧ Forall (fun kv => 0 ≤ count kv.2) (calls [] cs).
Proof.
  cut (∀ m, NoDup m.*1 → wf m → NoDup (calls m cs).*1 ∧ wf (calls m cs)).
  { intros H. destruct (H [] (NoDup_nil_2) wf_nil) as (? & ? & ?). done. }
  induction cs as [|c cs IH]; intros m Hnd Hwf; [done|].
  destruct (step_invariant m c Hnd Hwf) as [Hnd' Hwf'].
  by apply IH.
Qed.

(** X2. The life of a lock-out set by a check at time [t]: until 15 minutes
    later every check denies with the same date and leaves the map as it
    is; a check at exactly that date denies again and starts a new 15
    minutes; any later check forgives, resets the counter and allows. *)
Theorem lockout_lifecycle id m c t now :
  attempts_get id m = Some (Attempt c (Some (t + 15 * 60 * 1000)) (Some t)) →
  5 ≤ c →
  0 < t →
  (now < t + 15 * 60 * 1000 →
   checkRateLimit now id m = (m, Result false None (Some (t + 15 * 60 * 1000))))
  ∧ (now = t + 15 * 60 * 1000 →
     (checkRateLimit now id m).2 = Result false None (Some (now + 15 * 60 * 1000)))
  ∧ (t + 15 * 60 * 1000 < now →
     (checkRateLimit now id m).2 = Result true (Some 5) None
     ∧ attempts_get id (checkRateLimit now id m).1 = Some (Attempt 0 None None)).
Proof.
  intros Hget Hc Ht. unfold checkRateLimit. rewrite Hget.
  unfold lockout_active, window_expired, truthy, ATTEMPT_WINDOW, MAX_LOGIN_ATTEMPTS,
    LOCKOUT_DURATION. cbn [lockoutUntil lastAttemptAt count default from_option].
  unfold Datatypes.id.
  repeat match goal with
         | |- context [?a =? ?b] => destruct (Z.eqb_spec a b); [lia|]
         end.
  cbn [negb andb].
  split; [|split].
  - intros Hnow. by rewrite bool_decide_eq_true_2 by lia.
  - intros ->. rewrite bool_decide_eq_false_2 by lia.
    rewrite bool_decide_eq_false_2 by lia.
    by rewrite bool_decide_eq_true_2 by lia.
  - intros Hnow. rewrite bool_decide_eq_false_2 by lia.
    rewrite bool_decide_eq_true_2 by lia. cbn [fst snd].
    split; [done|apply get_set_eq].
Qed.

Lemma lockout_lifecycle_witness :
  (checkRateLimit 1900000 "ann@shop.test"
     [("ann@shop.test", Attempt 5 (Some 1900000) (Some 1000000))]).2
  = Result false None (Some 2800000).
Proof.
  refine (proj1 (proj2 (lockout_lifecycle "ann@shop.test" _ 5 1000000 1900000 _ _ _)) _).
  - reflexivity.
  - lia.
  - lia.
  - reflexivity.
Defined.

(** X3. A successful attempt lifts whatever the map holds on the
    identifier, an active lock-out included: the next check allows with all
    5 attempts, and the route that records the success answers so at once. *)
Theorem success_lifts_lockout id m now now' :
  id ≠ "" →
  (checkRateLimit now' id (recordLoginAttempt now id true m)).2
  = Result true (Some 5) None
  ∧ postRecordAttempt now id true m
    = (attempts_delete id m, MayAttempt (Some 5)).
Proof.
  intros Hid.
  assert (H : ∀ n, checkRateLimit n id (attempts_delete id m)
                   = (attempts_delete id m, Result true (Some 5) None)).
  { intros n. unfold checkRateLimit. by rewrite get_delete_eq. }
  split.
  - unfold recordLoginAttempt. by rewrite H.
  - unfold postRecordAttempt, recordLoginAttempt. rewrite decide_False by done.
    by rewrite H.
Qed.

Lemma success_lifts_lockout_witness :
  (checkRateLimit 1000001 "ann@shop.test"
     (recordLoginAttempt 1000001 "ann@shop.test" true
        [("ann@shop.test", Attempt 5 (Some 1900000) (Some 1000000))])).2
  = Result true (Some 5) None.
Proof.
  refine (proj1 (success_lifts_lockout "ann@shop.test" _ 1000001 1000001 _)).
  discriminate.
Defined.

(** One failed attempt through the route. *)
Lemma route_failure_get now email m :
  wf m → email ≠ "" →
  let c := count_or_0 (attempts_get email m) + 1 in
  wf (postRecordAttempt now email false m).1
  ∧ attempts_get email (postRecordAttempt now email false m).1
    = Some (Attempt c (if bool_decide (5 ≤ c) then Some (now + 15 * 60 * 1000) else None)
              (Some now))
  ∧ (postRecordAttempt now email false m).2
    = MayAttempt (if bool_decide (5 ≤ c) then None else Some (5 - c)).
Proof.
  intros Hwf Hne c. unfold postRecordAttempt. rewrite decide_False by done.
  destruct (record_failure_get now email m Hwf) as [Hwf1 Hget1]. fold c in Hget1.
  cbn [fst snd]. split; [by apply wf_check|].
  unfold checkRateLimit. rewrite Hget1.
  unfold lockout_active, window_expired, truthy, ATTEMPT_WINDOW, MAX_LOGIN_ATTEMPTS,
    LOCKOUT_DURATION. simpl.
  rewrite (bool_decide_eq_false_2 (900000 < now - now)) by lia.
  rewrite andb_false_r. case_bool_decide; simpl; [|done].
  by rewrite get_set_eq.
Qed.

Lemma route_failures_get email times m :
  wf m → email ≠ "" → times ≠ [] →
  let c := count_or_0 (attempts_get email m) + Z.of_nat (length times) in
  wf (route_failures email times m)
  ∧ attempts_get email (route_failures email times m)
    = Some (Attempt c
              (if bool_decide (5 ≤ c)
               then (fun t => t + 15 * 60 * 1000) <$> last times else None)
              (last times)).
Proof.
  intros Hwf Hne. revert m Hwf.
  induction times as [|t times IH]; intros m Hwf Hnil; [done|].
  destruct (route_failure_get t email m Hwf Hne) as (Hwf1 & Hget1 & _).
  destruct times as [|t' times].
  - change (route_failures email [t] m) with (postRecordAttempt t email false m).1.
    intros c. subst c. change (Z.of_nat (length [t])) with 1.
    change (last [t]) with (Some t).
    split; [done|]. rewrite Hget1. by case_bool_decide.
  - change (route_failures email (t :: t' :: times) m)
      with (route_failures email (t' :: times) (postRecordAttempt t email false m).1).
    destruct (IH _ Hwf1) as [Hwf2 Hget2]; [done|].
    intros c. subst c.
    split; [done|]. rewrite Hget2, Hget1. simpl count_or_0.
    change (last (t :: t' :: times)) with (last (t' :: times)).
    rewrite !length_cons.
    replace (count_or_0 (attempts_get email m) + 1 + Z.of_nat (S (length times)))
      with (count_or_0 (attempts_get email m) + Z.of_nat (S (S (length times)))) by lia.
    done.
Qed.

(** X4. Through the route the lock-out is not lazy: it is the fifth failed
    call itself that stores the lock-out date, 15 minutes after that call,
    whatever the times of the five calls (the route checks right after it
    has recorded, so it never sees an expired window). *)
Theorem route_lockout_is_immediate email times t5 m :
  wf m →
  email ≠ "" →
  length times = 5%nat →
  last times = Some t5 →
  ∃ c, 5 ≤ c
       ∧ attempts_get email (route_failures email times m)
         = Some (Attempt c (Some (t5 + 15 * 60 * 1000)) (Some t5)).
Proof.
  intros Hwf Hne Hlen Hlast.
  destruct (route_failures_get email times m Hwf Hne) as [_ Hget];
    [by destruct times|].
  rewrite Hlen, Hlast in Hget.
  assert (0 ≤ count_or_0 (attempts_get email m)) as Hc0.
  { destruct Hwf as [_ Hc]. destruct (attempts_get email m) as [a|] eqn:Hg; simpl; [|lia].
    by eapply get_count_nonneg. }
  eexists. split; [|rewrite Hget; by rewrite bool_decide_eq_true_2 by lia]. lia.
Qed.

Lemma route_lockout_is_immediate_witness :
  ∃ c, 5 ≤ c
       ∧ attempts_get "ann@shop.test"
           (route_failures "ann@shop.test"
              [1000; 5000000; 9000000; 13000000; 17000000] [])
         = Some (Attempt c (Some 17900000) (Some 17000000)).
Proof.
  refine (route_lockout_is_immediate "ann@shop.test"
            [1000; 5000000; 9000000; 13000000; 17000000] 17000000 [] _ _ _ _).
  - split; simpl; [lia|constructor].
  - discriminate.
  - reflexivity.
  - reflexivity.
Defined.



Lemma delete_notin k m : k ∉ m.*1 → attempts_delete k m = m.
Proof.
  unfold attempts_delete. induction m as [|[k' v'] m IH]; [done|].
  csimpl. intros [Hne Hk]%not_elem_of_cons.
  rewrite filter_cons. simpl. rewrite decide_True by done. by rewrite IH.
Qed.

Lemma delete_prefix (l1 l2 : jsmap) :
  NoDup (l1 ++ l2).*1 →
  fold_left (fun acc k' => attempts_delete k' acc) l1.*1 (l1 ++ l2) = l2.
Proof.
  induction l1 as [|[k v] l1 IH]; csimpl; [done|].
  intros [Hk Hnd]%NoDup_cons.
  unfold attempts_delete at 2. rewrite filter_cons. simpl.
  rewrite decide_False by (intros H; by apply H).
  fold (attempts_delete k (l1 ++ l2)). rewrite delete_notin by done.
  by apply IH.
Qed.

(** The bulk eviction of a map with distinct keys drops its first 100
    entries. *)
Lemma evict_drop m : NoDup m.*1 → evict_oldest m = drop 100 m.
Proof.
  intros Hnd. unfold evict_oldest.
  rewrite <- (take_drop 100 m) at 2. apply delete_prefix.
  by rewrite take_drop.
Qed.

Lemma get_notin k m : k ∉ m.*1 → attempts_get k m = None.
Proof.
  induction m as [|[k' v'] m IH]; csimpl; [done|].
  intros [Hne Hk]%not_elem_of_cons. rewrite decide_False by done. by apply IH.
Qed.

Lemma get_app_notin k (l1 l2 : jsmap) :
  k ∉ l1.*1 → attempts_get k (l1 ++ l2) = attempts_get k l2.
Proof.
  induction l1 as [|[k' v'] l1 IH]; csimpl; [done|].
  intros [Hne Hk]%not_elem_of_cons. rewrite decide_False by done. by apply IH.
Qed.

Lemma get_snoc_ne id k v (l : jsmap) :
  id ≠ k → attempts_get id (l ++ [(k, v)]) = attempts_get id l.
Proof.
  intros Hne. induction l as [|[k' v'] l IH]; csimpl.
  - case_decide; [congruence|done].
  - by case_decide.
Qed.

(** X6. The capacity bound forgets: when the map holds 1000 identifiers and
    a new one fails, the 100 oldest entries go, lock-outs included, and the
    check of any of them allows again with all 5 attempts; the entries
    after the first 100 stay as they are. *)
Theorem eviction_forgets_oldest now k m id :
  NoDup m.*1 →
  length m = 1000%nat →
  attempts_get k m = None →
  recordLoginAttempt now k false m = drop 100 m ++ [(k, Attempt 1 None (Some now))]
  ∧ (id ∈ (take 100 m).*1 →
     ∀ now', (checkRateLimit now' id (recordLoginAttempt now k false m)).2
             = Result true (Some 5) None)
  ∧ (id ∉ (take 100 m).*1 → id ≠ k →
     attempts_get id (recordLoginAttempt now k false m) = attempts_get id m).
Proof.
  intros Hnd Hlen Hk.
  assert (Hrec : recordLoginAttempt now k false m
                 = drop 100 m ++ [(k, Attempt 1 None (Some now))]).
  { unfold recordLoginAttempt. rewrite Hk. simpl.
    pose proof (set_NoDup k (Attempt 1 None (Some now)) m Hnd) as Hnd'.
    rewrite set_None in * by done.
    rewrite bool_decide_eq_true_2 by (rewrite length_app, Hlen; simpl; lia).
    rewrite evict_drop by done. by rewrite drop_app_le by lia. }
  rewrite Hrec. split; [done|].
  assert (Hsplit : NoDup ((take 100 m).*1 ++ (drop 100 m).*1)).
  { by rewrite <- fmap_app, take_drop. }
  apply NoDup_app in Hsplit as (_ & Hdisj & _).
  apply get_None_keys in Hk as Hk'.
  split.
  - intros Hin now'.
    assert (attempts_get id (drop 100 m ++ [(k, Attempt 1 None (Some now))]) = None) as Hg.
    { apply get_notin. rewrite fmap_app. apply not_elem_of_app. split.
      - by apply Hdisj.
      - simpl. intros Heq%list_elem_of_singleton. subst id. apply Hk'.
        apply list_elem_of_fmap in Hin as (kv & -> & Hin).
        apply list_elem_of_fmap. exists kv. split; [done|]. by eapply subseteq_take. }
    unfold checkRateLimit. by rewrite Hg.
  - intros Hout Hne.
    rewrite <- (take_drop 100 m) at 2.
    rewrite (get_app_notin id (take 100 m)) by done.
    by apply get_snoc_ne.
Qed.

Lemma eviction_forgets_oldest_witness :
  (checkRateLimit 1000002 (customer 0)
     (recordLoginAttempt 1000001 "new@shop.test" false full_map)).2
  = Result true (Some 5) None.
Proof.
  refine (proj1 (proj2 (eviction_forgets_oldest 1000001 "new@shop.test" full_map
                          (customer 0) _ _ _)) _ 1000002).
  - apply (bool_decide_unpack _). vm_compute. exact I.
  - vm_compute. reflexivity.
  - vm_compute. reflexivity.
  - apply (bool_decide_unpack _). vm_compute. exact I.
Defined.

(** X7. The sweep removes the entries whose lock-out date is in the past
    and nothing else: a record without a lock-out date, or with one that is
    not yet over, is found unchanged after the sweep. *)
Theorem sweep_keeps_and_removes now id m a :
  NoDup m.*1 →
  attempts_get id m = Some a →
  attempts_get id (sweep now m) = if lockout_over now a then None else Some a.
Proof.
  unfold sweep. induction m as [|[k' v'] m IH]; csimpl; [done|].
  intros [Hk Hnd]%NoDup_cons. rewrite filter_cons. simpl.
  destruct (decide (k' = id)) as [->|Hne].
  - intros [= ->]. case_decide as Hd; simpl.
    + rewrite decide_True by done.
      destruct (lockout_over now a); [|done]. by destruct Hd.
    + destruct (lockout_over now a); [|by destruct Hd].
      apply get_notin. intros Hin. apply Hk.
      apply list_elem_of_fmap in Hin as (kv & -> & Hin).
      apply list_elem_of_filter in Hin as [_ Hin].
      apply list_elem_of_fmap. by exists kv.
  - intros Hget. case_decide; simpl.
    + rewrite decide_False by done. by apply IH.
    + by apply IH.
Qed.

Lemma sweep_keeps_and_removes_witness :
  attempts_get "ann@shop.test"
    (sweep 2000000
       [("bob@shop.test", Attempt 5 (Some 1900000) (Some 1000000));
        ("ann@shop.test", Attempt 3 None (Some 1000000))])
  = Some (Attempt 3 None (Some 1000000)).
Proof.
  refine (sweep_keeps_and_removes 2000000 "ann@shop.test" _
            (Attempt 3 None (Some 1000000)) _ _).
  - apply (bool_decide_unpack _). vm_compute. exact I.
  - reflexivity.
Defined.

(** X8. A failed attempt while a lock-out is running overwrites the record
    without its lock-out date; the next check within the window denies
    again and counts 15 minutes from its own time, whatever was left of the
    old lock-out. *)
Theorem failure_restarts_lockout t now id m a :
  wf m →
  attempts_get id m = Some a →
  5 ≤ count a →
  now - t ≤ 15 * 60 * 1000 →
  attempts_get id (recordLoginAttempt t id false m)
  = Some (Attempt (count a + 1) None (Some t))
  ∧ (checkRateLimit now id (recordLoginAttempt t id false m)).2
    = Result false None (Some (now + 15 * 60 * 1000)).
Proof.
  intros Hwf Hget Hc Hnow.
  destruct (record_failure_get t id m Hwf) as [_ Hrec]. rewrite Hget in Hrec.
  cbn [count_or_0] in Hrec. split; [done|].
  destruct (check_after_failures now id _ _ _ Hrec) as [_ Hlock].
  by rewrite Hlock by (unfold MAX_LOGIN_ATTEMPTS, ATTEMPT_WINDOW; lia).
Qed.

Lemma failure_restarts_lockout_witness :
  (checkRateLimit 1500000 "ann@shop.test"
     (recordLoginAttempt 1400000 "ann@shop.test" false
        [("ann@shop.test", Attempt 5 (Some 1900000) (Some 1000000))])).2
  = Result false None (Some 2400000).
Proof.
  refine (proj2 (failure_restarts_lockout 1400000 1500000 "ann@shop.test" _
                   (Attempt 5 (Some 1900000) (Some 1000000)) _ _ _ _)).
  - split; simpl; [lia|repeat constructor; simpl; lia].
  - reflexivity.
  - simpl. lia.
  - lia.
Defined.

End RateLimitRoutes.

(** ** The whole API: what every product and every receipt keeps *)

Section WholeApi.

Implicit Types (s : Store) (p : Product.t) (k pid : string).












(** *** What validation lets through *)

Lemma sanitizeString_ok input maxLength v :
  sanitizeString input maxLength = Ok v →
  v = trim input ∧ v ≠ "" ∧ (String.length v ≤ maxLength)%nat.
Proof.
  unfold sanitizeString. case_decide; [done|].
  case_bool_decide; [done|]. intros [= <-]. split; [done|]. split; [done|]. lia.
Qed.




(** *** Receipts *)








(** *** Calls that fail half way *)







(** *** Orders from creation to deletion *)



(** X15. The quantity of an order line is taken as it comes: an order with
    a line of zero or negative quantity is stored, and shipping it does not
    fail and leaves the product with its stock less that quantity, that is,
    not lower than before. *)
Theorem unchecked_order_quantity now now' actor actor' oid pid p q raw s :
  products s !! pid = Some p →
  0 ≤ Product.stock p →
  q ≤ 0 →
  or_items raw = [Line pid q] →
  let s1 := (postOrder now actor oid raw s).1 in
  let r := putOrder now' actor' oid (ask "shipped") s1 in
  is_success (postOrder now actor oid raw s).2 = true
  ∧ is_success r.2 = true
  ∧ stock_of r.1 pid = Product.stock p - q
  ∧ Product.stock p ≤ stock_of r.1 pid.
Proof.
  intros Hp Hstock Hq Hitems s1 r. subst s1 r.
  unfold postOrder. rewrite Hitems. simpl. rewrite Hp. simpl.
  unfold putOrder, ship_phase, ships. simpl. rewrite lookup_insert_eq. simpl.
  rewrite Hp. simpl. rewrite bool_decide_eq_false_2 by lia. simpl.
  unfold stock_of. simpl. rewrite lookup_insert_eq. simpl.
  repeat split; try done; lia.
Qed.

Lemma unchecked_order_quantity_witness :
  stock_of
    (putOrder 2 ann "order:9" (ask "shipped")
       (postOrder 1 ann "order:9"
          (OrderFields None None None [Line "product:soap" (-3)] None None None) shop).1).1
    "product:soap"
  = 8.
Proof.
  refine (proj1 (proj2 (proj2
    (unchecked_order_quantity 1 2 ann ann "order:9" "product:soap" soap (-3)
       (OrderFields None None None [Line "product:soap" (-3)] None None None) shop
       _ _ _ _)))).
  - reflexivity.
  - simpl. lia.
  - lia.
  - reflexivity.
Defined.



(** *** Products *)









End WholeApi.

(** ** The listing routes *)

Section Listings.

Context {A : Type} (key : A → Z).

Lemma insert_desc_perm (x : A) (l : list A) : insert_desc key x l ≡ₚ x :: l.
Proof.
  induction l as [|y l IH]; simpl; [done|].
  case_bool_decide; [|done]. rewrite IH. apply Permutation_swap.
Qed.

Lemma sort_desc_perm (l : list A) : sort_desc key l ≡ₚ l.
Proof.
  induction l as [|x l IH]; simpl; [done|].
  rewrite insert_desc_perm. by rewrite IH.
Qed.

Lemma insert_desc_sorted (x : A) (l : list A) :
  StronglySorted (fun a b => key b ≤ key a) l →
  StronglySorted (fun a b => key b ≤ key a) (insert_desc key x l).
Proof.
  induction 1 as [|y l Hl IH Hy]; simpl; [repeat constructor|].
  case_bool_decide as Hlt.
  - constructor; [done|]. rewrite insert_desc_perm. constructor; [lia|done].
  - constructor; [by constructor|]. constructor; [lia|].
    eapply Forall_impl; [exact Hy|]. simpl. intros z Hz. lia.
Qed.

Lemma sort_desc_sorted (l : list A) :
  StronglySorted (fun a b => key b ≤ key a) (sort_desc key l).
Proof.
  induction l as [|x l IH]; simpl; [constructor|]. by apply insert_desc_sorted.
Qed.

Lemma sort_desc_length (l : list A) : length (sort_desc key l) = length l.
Proof. by rewrite sort_desc_perm. Qed.


End Listings.

Section ListingRoutes.




(** X21. The list of history entries applies no bound of its own to the
    [limit] parameter: missing, it is 50; when it is not a number nothing
    is returned; a negative value leaves out that many of the oldest
    entries; and any value at or above the number of entries returns them
    all.  What is returned is always a newest-first prefix of the entries
    of the product asked for. *)
Theorem history_listing productId limitRaw s :
  let matching :=
    match productId with
    | Some (String _ _ as pid) => filter (fun h => History.productId h = pid) (stock_history s)
    | _ => stock_history s
    end in
  let sorted := sort_desc History.timestamp matching in
  let result := getStockHistory productId limitRaw s in
  sorted ≡ₚ matching
  ∧ StronglySorted (fun a b => History.timestamp b ≤ History.timestamp a) sorted
  ∧ (∃ n, result = take n sorted)
  ∧ (limitRaw = None → result = take 50 sorted)
  ∧ (parseInt (str_or limitRaw "50") = NaN → result = [])
  ∧ (∀ z, parseInt (str_or limitRaw "50") = Int z → z < 0 →
          result = take (length matching - Z.to_nat (- z)) sorted)
  ∧ (∀ z, parseInt (str_or limitRaw "50") = Int z → Z.of_nat (length matching) ≤ z →
          result = sorted).
Proof.
  intros matching sorted result.
  assert (Hres : result = slice_to (parseInt (str_or limitRaw "50")) sorted) by done.
  assert (Hlen : length sorted = length matching) by apply sort_desc_length.
  split; [apply sort_desc_perm|]. split; [apply sort_desc_sorted|].
  rewrite Hres. unfold slice_to. split; [|split; [|split; [|split]]].
  - destruct (parseInt _) as [|z]; [by exists 0%nat|]. case_bool_decide; eauto.
  - by intros ->.
  - by intros ->.
  - intros z -> Hz. rewrite bool_decide_eq_true_2 by done. f_equal. lia.
  - intros z -> Hz. rewrite bool_decide_eq_false_2 by lia.
    apply take_ge. lia.
Qed.

Lemma history_listing_witness :
  getStockHistory None (Some "-1")
    (run shop
       [AdjustStock 1 ann "product:soap" (AdjustRequest 1 None None);
        AdjustStock 2 ann "product:soap" (AdjustRequest 1 None None);
        AdjustStock 3 ann "product:soap" (AdjustRequest 1 None None)])
  = take (3 - Z.to_nat (- -1))
      (sort_desc History.timestamp
         (stock_history
            (run shop
               [AdjustStock 1 ann "product:soap" (AdjustRequest 1 None None);
                AdjustStock 2 ann "product:soap" (AdjustRequest 1 None None);
                AdjustStock 3 ann "product:soap" (AdjustRequest 1 None None)]))).
Proof.
  refine (proj1 (proj2 (proj2 (proj2 (proj2 (proj2
    (history_listing None (Some "-1") _)))))) (-1) _ _).
  - reflexivity.
  - lia.
Defined.

End ListingRoutes.

(** ** Purchases *)

Section Purchases.





(** X23. Only a manager deletes a purchase: for any other role, the admin
    who may record purchases included, the deletion answers 403 and the
    purchase just stored is still there; for a manager it is removed, and
    neither products nor stock history move. *)
Theorem purchase_deletion now now' actor actor' purchaseId raw b b' p :
  postPurchase now actor purchaseId raw b = (b', Success p) →
  purchases b' !! purchaseId = Some p
  ∧ (actor_role actor' ≠ "manager" →
     ∃ e, deletePurchase now' actor' purchaseId b' = (b', Failure 403 e))
  ∧ (actor_role actor' = "manager" →
     (deletePurchase now' actor' purchaseId b').2 = Success tt
     ∧ purchases (deletePurchase now' actor' purchaseId b').1 !! purchaseId = None
     ∧ products (ledger (deletePurchase now' actor' purchaseId b').1) = products (ledger b)
     ∧ stock_history (ledger (deletePurchase now' actor' purchaseId b').1)
       = stock_history (ledger b)).
Proof.
  unfold postPurchase. destruct (decide _); [done|].
  destruct (validatePurchase raw) as [parsed|]; [|done].
  intros [= <- <-]. simpl. split; [apply lookup_insert_eq|].
  unfold deletePurchase. split.
  - intros Hrole. rewrite decide_False by done. eauto.
  - intros Hrole. rewrite decide_True by done. simpl.
    split; [done|]. split; [apply lookup_delete_eq|done].
Qed.

Lemma purchase_deletion_witness :
  ∃ e,
    deletePurchase 2 (mkActor "user-3" "Di" "admin") "purchase:1"
      (postPurchase 1 (mkActor "user-3" "Di" "admin") "purchase:1"
         (PurchaseFields [PurchaseLine "Flour" 3 20 None] None None None None None)
         (mkBooks shop ∅)).1
    = ((postPurchase 1 (mkActor "user-3" "Di" "admin") "purchase:1"
          (PurchaseFields [PurchaseLine "Flour" 3 20 None] None None None None None)
          (mkBooks shop ∅)).1,
       Failure 403 e).
Proof.
  destruct (postPurchase 1 (mkActor "user-3" "Di" "admin") "purchase:1"
              (PurchaseFields [PurchaseLine "Flour" 3 20 None] None None None None None)
              (mkBooks shop ∅)) as [b' [p|st e]] eqn:Hrun; [|by vm_compute in Hrun].
  refine (proj1 (proj2
    (purchase_deletion 1 2 _ (mkActor "user-3" "Di" "admin") "purchase:1" _ _ b' p Hrun)) _).
  discriminate.
Defined.

End Purchases.

(** ** Sanitised strings *)

Section Sanitised.

Lemma append_cons (x : ascii) (a b : string) : String x a +:+ b = String x (a +:+ b).
Proof. reflexivity. Qed.

Lemma append_nil (b : string) : "" +:+ b = b.
Proof. reflexivity. Qed.

Lemma append_assoc (a b c : string) : (a +:+ b) +:+ c = a +:+ (b +:+ c).
Proof.
  induction a as [|x a IH]; [by rewrite !append_nil|].
  by rewrite !append_cons, IH.
Qed.

Lemma append_empty_r (a : string) : a +:+ "" = a.
Proof.
  induction a as [|x a IH]; [done|]. by rewrite append_cons, IH.
Qed.

Lemma rev_app_spec (s t : string) : String.rev_app s t = String.rev s +:+ t.
Proof.
  unfold String.rev. revert t. induction s as [|a s IH]; intros t; simpl; [done|].
  rewrite (IH (String a t)), (IH (String a "")).
  by rewrite append_assoc, append_cons, append_nil.
Qed.

Lemma rev_cons (a : ascii) (s : string) :
  String.rev (String a s) = String.rev s +:+ String a "".
Proof. unfold String.rev at 1. simpl. apply rev_app_spec. Qed.

Lemma rev_append (s t : string) : String.rev (s +:+ t) = String.rev t +:+ String.rev s.
Proof.
  induction s as [|a s IH].
  - by rewrite append_nil, append_empty_r.
  - by rewrite append_cons, !rev_cons, IH, append_assoc.
Qed.

Lemma rev_involutive (s : string) : String.rev (String.rev s) = s.
Proof.
  induction s as [|a s IH]; [done|].
  by rewrite rev_cons, rev_append, IH.
Qed.

Lemma ltrim_clean (s : string) : clean_head (ltrim s).
Proof.
  induction s as [|a s IH]; simpl; [done|].
  by destruct (is_space a) eqn:Ha.
Qed.

Lemma ltrim_id (s : string) : clean_head s → ltrim s = s.
Proof. destruct s as [|a s]; simpl; [done|]. by intros ->. Qed.

Lemma ltrim_suffix (s : string) : ∃ w, s = w +:+ ltrim s.
Proof.
  induction s as [|a s [w IH]]; simpl; [by exists ""|].
  destruct (is_space a); [|by exists ""].
  exists (String a w). by rewrite append_cons, <- IH.
Qed.

Lemma clean_head_prefix (r t v : string) : t = r +:+ v → clean_head t → clean_head r.
Proof. intros ->. by destruct r. Qed.

(** Trimming twice is trimming once. *)
Lemma trim_idempotent (s : string) : trim (trim s) = trim s.
Proof.
  unfold trim.
  set (t := ltrim s). set (u := ltrim (String.rev t)).
  assert (Hr : clean_head (String.rev u)).
  { destruct (ltrim_suffix (String.rev t)) as [w Hw]. fold u in Hw.
    apply (f_equal String.rev) in Hw. rewrite rev_involutive, rev_append in Hw.
    eapply clean_head_prefix; [exact Hw|apply ltrim_clean]. }
  rewrite (ltrim_id (String.rev u)) by done.
  rewrite rev_involutive. by rewrite (ltrim_id u) by apply ltrim_clean.
Qed.

(** X24. Sanitising is idempotent: a string that [sanitizeString] returns
    is returned unchanged when it is sanitised again with the same bound,
    so a value read back from the store passes the same validation as it
    is. *)
Theorem sanitizeString_idempotent input maxLength v :
  sanitizeString input maxLength = Ok v →
  sanitizeString v maxLength = Ok v.
Proof.
  intros Hv. pose proof Hv as (-> & Hne & Hlen)%sanitizeString_ok.
  unfold sanitizeString. rewrite trim_idempotent.
  rewrite decide_False by done. by rewrite bool_decide_eq_false_2 by lia.
Qed.

Lemma sanitizeString_idempotent_witness :
  sanitizeString "Green tea" 120 = Ok "Green tea".
Proof.
  refine (sanitizeString_idempotent "  Green tea  " 120 "Green tea" _).
  reflexivity.
Defined.

End Sanitised.

(** ** The product report *)

Section ProductReport.














End ProductReport.
